(** * CEX wallet tracker: the detection pipeline, embedded and verified

    A shallow embedding of the TypeScript sources

      - [utils/rangeParser.ts]   (range parsing and matching),
      - [utils/env.ts]           (the range parser used by [loadConfig]),
      - [utils/txParser.ts]      (balance-diff analyzer),
      - [utils/scrutinyCheck.ts] (one-hop scrutiny check),
      - [utils/websocket.ts]     (reconnecting stream client),
      - [index.ts]               (coordinator, [processLogEvent]).

    Conventions of the embedding.

      - A JavaScript [number] read from a string or compared with zero or
        with the bound of a range is an exact rational extended with NaN and
        the two infinities; a literal too large for a double is an infinity.
        Balances are integers (lamports) and an amount in SOL is the exact
        quotient by [LAMPORTS_PER_SOL].  On the balances that a double
        holds, all those below 2^53 among them, rounding does not change
        the sign of a difference; in the comparison of an amount with the
        bound of a range it is not represented.
      - The two tests that compare one computed amount with another, the
        tolerance test of [index.ts] and the equality test of
        [scrutinyCheck.ts], depend on rounding: they are evaluated in
        binary64 arithmetic ([Double]), on the quotients as the program
        computes them.
      - A JavaScript string is a [string] of 8-bit characters.
      - The RPC node is an oracle threaded through an abstract [World]; a
        call returns a value or throws, and moves the world on.
      - [try]/[catch] is an error monad whose handler is written out. *)

From Stdlib Require Import ZArith QArith Qabs List String Ascii Bool Lia Arith.
From Stdlib Require DecimalString DecimalNat SpecFloat.
Import ListNotations.

Local Open Scope string_scope.
Local Open Scope Z_scope.

(* ===================================================================== *)
(** ** JavaScript numbers *)
(* ===================================================================== *)

Module JS.

Inductive number : Type :=
| NaN
| NegInfinity
| Finite (q : Q)
| PosInfinity.

(** [a <= b] as JavaScript evaluates it: false as soon as one side is NaN. *)
Definition leb (a b : number) : bool :=
  match a, b with
  | NaN, _ | _, NaN => false
  | NegInfinity, _ => true
  | _, PosInfinity => true
  | Finite x, Finite y => Qle_bool x y
  | Finite _, NegInfinity => false
  | PosInfinity, _ => false
  end.

(** [a >= b]. *)
Definition geb (a b : number) : bool := leb b a.

(** [a < b]. *)
Definition ltb (a b : number) : bool :=
  match a, b with
  | NaN, _ | _, NaN => false
  | _, NegInfinity => false
  | PosInfinity, _ => false
  | NegInfinity, _ => true
  | Finite _, PosInfinity => true
  | Finite x, Finite y => negb (Qle_bool y x)
  end.

(** [a > b]. *)
Definition gtb (a b : number) : bool := ltb b a.

Definition isNaN (a : number) : bool :=
  match a with NaN => true | _ => false end.

(** The order of the extended rationals, as a proposition; NaN is related to
    nothing. *)
Definition le (a b : number) : Prop :=
  match a, b with
  | NaN, _ | _, NaN => False
  | NegInfinity, _ => True
  | _, PosInfinity => True
  | Finite x, Finite y => (x <= y)%Q
  | _, _ => False
  end.

Definition lt (a b : number) : Prop :=
  match a, b with
  | NaN, _ | _, NaN => False
  | _, NegInfinity => False
  | PosInfinity, _ => False
  | NegInfinity, _ => True
  | Finite _, PosInfinity => True
  | Finite x, Finite y => (x < y)%Q
  end.

(** *** Strings: [trim], [split] *)

(** WhiteSpace and LineTerminator code points below 256: TAB, LF, VT, FF,
    CR, SP and NBSP. *)
Definition isWhiteSpace (c : ascii) : bool :=
  let n := N_of_ascii c in
  ((9 <=? n) && (n <=? 13) || (n =? 32) || (n =? 160))%N.

Fixpoint trimStart (s : string) : string :=
  match s with
  | String c r => if isWhiteSpace c then trimStart r else s
  | EmptyString => EmptyString
  end.

Fixpoint trimEnd (s : string) : string :=
  match s with
  | String c r =>
      match trimEnd r with
      | EmptyString => if isWhiteSpace c then EmptyString else String c EmptyString
      | r' => String c r'
      end
  | EmptyString => EmptyString
  end.

Definition trim (s : string) : string := trimEnd (trimStart s).

(** [s.split(sep)] for a one-character separator: never the empty list. *)
Fixpoint split (sep : ascii) (s : string) : list string :=
  match s with
  | EmptyString => [EmptyString]
  | String c r =>
      if Ascii.eqb c sep then EmptyString :: split sep r
      else match split sep r with
           | h :: t => String c h :: t
           | [] => [String c EmptyString]
           end
  end.

(** *** [Number(string)]: the StringNumericLiteral grammar *)

Definition digitOfRadix (radix : N) (c : ascii) : option N :=
  let n := N_of_ascii c in
  let v := (if (48 <=? n) && (n <=? 57) then Some (n - 48)
            else if (97 <=? n) && (n <=? 102) then Some (n - 87)
            else if (65 <=? n) && (n <=? 70) then Some (n - 55)
            else None)%N in
  match v with
  | Some d => if (d <? radix)%N then Some d else None
  | None => None
  end.

(** Longest prefix of digits: its value, its length, and what follows. *)
Fixpoint takeDigits (radix : N) (s : string) (acc : N) (cnt : nat)
  : N * nat * string :=
  match s with
  | EmptyString => (acc, cnt, EmptyString)
  | String c r =>
      match digitOfRadix radix c with
      | Some d => takeDigits radix r (radix * acc + d)%N (S cnt)
      | None => (acc, cnt, s)
      end
  end.

(** [m * 10^e] as a reduced fraction. *)
Definition scale10 (m : N) (e : Z) : Q :=
  if (0 <=? e)%Z
  then Qred (inject_Z (Z.of_N m * 10 ^ e))
  else Qred (Qmake (Z.of_N m) (Z.to_pos (10 ^ (- e)))).

(** A literal at or above [2^1024 - 2^970], half an ulp above the largest
    double, is read as [Infinity]. *)
Definition OVERFLOW : Q := inject_Z (2 ^ 1024 - 2 ^ 970).

Definition literal (q : Q) : number :=
  if Qle_bool OVERFLOW q then PosInfinity else Finite q.

(** ExponentPart (optional): [e] or [E], a sign, at least one digit, then the
    end of the string. *)
Definition parseExponent (s : string) : option Z :=
  match s with
  | EmptyString => Some 0
  | String c r =>
      if Ascii.eqb c "e" || Ascii.eqb c "E" then
        let '(neg, r') :=
          match r with
          | String "+" t => (false, t)
          | String "-" t => (true, t)
          | _ => (false, r)
          end in
        match takeDigits 10 r' 0%N 0%nat with
        | (_, O, _) => None
        | (v, S _, EmptyString) => Some (if neg then - Z.of_N v else Z.of_N v)
        | (_, S _, String _ _) => None
        end
      else None
  end.

(** StrUnsignedDecimalLiteral. *)
Definition parseUnsignedDecimal (s : string) : option number :=
  if String.eqb s "Infinity" then Some PosInfinity else
  let '(i, ni, r1) := takeDigits 10 s 0%N 0%nat in
  let '(m, nf, r2) :=
    match r1 with
    | String "." r => takeDigits 10 r i 0%nat
    | _ => (i, 0%nat, r1)
    end in
  match (ni + nf)%nat with
  | O => None
  | S _ =>
      match parseExponent r2 with
      | Some e => Some (literal (scale10 m (e - Z.of_nat nf)))
      | None => None
      end
  end.

(** NonDecimalIntegerLiteral: [0x], [0o], [0b] and at least one digit. *)
Definition parseNonDecimal (s : string) : option number :=
  match s with
  | String "0" (String p r) =>
      let radix :=
        if Ascii.eqb p "x" || Ascii.eqb p "X" then Some 16%N
        else if Ascii.eqb p "o" || Ascii.eqb p "O" then Some 8%N
        else if Ascii.eqb p "b" || Ascii.eqb p "B" then Some 2%N
        else None in
      match radix with
      | Some rd =>
          match takeDigits rd r 0%N 0%nat with
          | (v, S _, EmptyString) => Some (literal (inject_Z (Z.of_N v)))
          | _ => None
          end
      | None => None
      end
  | _ => None
  end.

Definition negate (a : number) : number :=
  match a with
  | NaN => NaN
  | NegInfinity => PosInfinity
  | PosInfinity => NegInfinity
  | Finite q => Finite (Qred (- q))
  end.

(** [Number(s)]. *)
Definition Number (s : string) : number :=
  let t := trim s in
  match t with
  | EmptyString => Finite 0
  | String c r =>
      match parseNonDecimal t with
      | Some v => v
      | None =>
          let o :=
            if Ascii.eqb c "+" then parseUnsignedDecimal r
            else if Ascii.eqb c "-" then option_map negate (parseUnsignedDecimal r)
            else parseUnsignedDecimal t in
          match o with Some v => v | None => NaN end
      end
  end.

End JS.

(* ===================================================================== *)
(** ** Results of fallible code *)
(* ===================================================================== *)

(** A computation that returns or throws. *)
Inductive Result (E A : Type) : Type :=
| Ok (a : A)
| Throw (e : E).
Arguments Ok {E A} a.
Arguments Throw {E A} e.

(** [xs.map(f)] where [f] may throw: elements are visited left to right and
    the first exception aborts the whole map. *)
Fixpoint mapResult {E A B : Type} (f : A -> Result E B) (xs : list A)
  : Result E (list B) :=
  match xs with
  | [] => Ok []
  | x :: rest =>
      match f x with
      | Throw e => Throw e
      | Ok y =>
          match mapResult f rest with
          | Throw e => Throw e
          | Ok ys => Ok (y :: ys)
          end
      end
  end.

(* ===================================================================== *)
(** ** utils/rangeParser.ts and the range parser of utils/env.ts *)
(* ===================================================================== *)

Record Range : Type := mkRange { min : JS.number; max : JS.number }.

(** The two errors of range parsing:
    [new Error(`Invalid range format: ${range}`)] and
    [new Error(`Invalid range: min (${min}) > max (${max})`)]. *)
Inductive RangeError : Type :=
| InvalidRangeFormat (range : string)
| InvalidRangeBounds (min max : JS.number).

(** [const [min, max] = range.trim().split('-').map(Number)]: the first two
    parts; a missing second part is [undefined], which [isNaN] treats as NaN. *)
Definition segmentBounds (range : string) : JS.number * JS.number :=
  match map JS.Number (JS.split "-" (JS.trim range)) with
  | a :: b :: _ => (a, b)
  | [a] => (a, JS.NaN)
  | [] => (JS.NaN, JS.NaN)
  end.

(** The amount lies in the closed interval of the range. *)
Definition inside (amount : JS.number) (r : Range) : Prop :=
  JS.le (min r) amount /\ JS.le amount (max r).

Module RangeParser.

Definition parseSegment (range : string) : Result RangeError Range :=
  let '(min, max) := segmentBounds range in
  if JS.isNaN min || JS.isNaN max then Throw (InvalidRangeFormat range)
  else if JS.gtb min max then Throw (InvalidRangeBounds min max)
  else Ok (mkRange min max).

Definition parseRangeString (rangeStr : string) : Result RangeError (list Range) :=
  mapResult parseSegment (JS.split "," rangeStr).

(** The test of [some] and [find]:
    [amount >= range.min && amount <= range.max]. *)
Definition inRange (amount : JS.number) (range : Range) : bool :=
  JS.geb amount (min range) && JS.leb amount (max range).

Definition isAmountInRange (amount : JS.number) (ranges : list Range) : bool :=
  existsb (inRange amount) ranges.

(** [ranges.find(...) || null]: a found range is an object, hence truthy. *)
Definition getMatchingRange (amount : JS.number) (ranges : list Range)
  : option Range :=
  find (inRange amount) ranges.

End RangeParser.

Module Env.

(** [parseRanges] of env.ts, the parser [loadConfig] calls. *)
Definition parseSegment (range : string) : Result RangeError Range :=
  let '(min, max) := segmentBounds range in
  if JS.isNaN min || JS.isNaN max then Throw (InvalidRangeFormat range)
  else Ok (mkRange min max).

Definition parseRanges (rangeStr : string) : Result RangeError (list Range) :=
  mapResult parseSegment (JS.split "," rangeStr).

Record CEXWallet : Type := mkCEXWallet {
  label : string;
  address : string;
  ranges : list Range
}.

Record Config : Type := mkConfig {
  rpcEndpoint : string;
  cexWallets : list CEXWallet
}.

End Env.

(* ===================================================================== *)
(** ** The RPC node and the data it returns *)
(* ===================================================================== *)

(** A thrown value: an [Error] with its message, or anything else. *)
Inductive exn : Type :=
| ErrorObject (message : string)
| NonError.

(** [new Connection(endpoint, commitment?)]. *)
Record Connection : Type := mkConnection {
  endpoint : string;
  commitment : option string
}.

(** One element of [transaction.message.accountKeys], as the [as any] code of
    index.ts and scrutinyCheck.ts distinguishes them. *)
Inductive AccountKeyEntry : Type :=
| EntryString (s : string)            (* typeof entry === 'string' *)
| EntryPubkeyString (s : string)      (* typeof entry.pubkey === 'string' *)
| EntryPubkeyObject (base58 : string) (* entry.pubkey is a PublicKey *)
| EntryOther (shown : string).        (* anything else; [shown] is String(entry) *)

Record TransactionMeta : Type := mkMeta {
  preBalances : list Z;
  postBalances : list Z
}.

Record ParsedTransactionWithMeta : Type := mkTx {
  meta : option TransactionMeta;
  accountKeys : list AccountKeyEntry;
  blockTime : option Z
}.

Record ConfirmedSignatureInfo : Type := mkSigInfo { signature : string }.

(** What the program asks of its host: the web3.js client and the clock.
    Every RPC call may throw and may change the world. *)
Record Host (World : Type) : Type := mkHost {
  (** [new PublicKey(s)] succeeds *)
  validPublicKey : string -> bool;
  getSignaturesForAddress :
    Connection -> string -> nat -> World ->
    Result exn (list ConfirmedSignatureInfo) * World;
  getParsedTransaction :
    Connection -> string -> World ->
    Result exn (option ParsedTransactionWithMeta) * World;
  (** [new Date()] *)
  dateNow : World -> Z
}.
Arguments validPublicKey {World} _ _.
Arguments getSignaturesForAddress {World} _ _ _ _ _.
Arguments getParsedTransaction {World} _ _ _ _.
Arguments dateNow {World} _ _.

Definition LAMPORTS_PER_SOL : positive := 1000000000.

(** [lamports / LAMPORTS_PER_SOL]. *)
Definition sol (lamports : Z) : Q := lamports # LAMPORTS_PER_SOL.

(** [balances[i] || 0]. *)
Definition balanceAt (balances : list Z) (i : nat) : Z := nth i balances 0.

Definition Qltb (x y : Q) : bool := negb (Qle_bool y x).

(** *** Doubles *)

(** IEEE 754 binary64 with rounding to nearest, ties to even: the arithmetic
    of JavaScript numbers. *)
Module Double.

Definition double : Type := SpecFloat.spec_float.

Definition prec : Z := 53.
Definition emax : Z := 1024.

Definition zero : double := SpecFloat.S754_zero false.

(** The double nearest to an integer. *)
Definition ofZ (z : Z) : double := SpecFloat.binary_normalize prec emax z 0 false.

Definition sub : double -> double -> double := SpecFloat.SFsub prec emax.
Definition div : double -> double -> double := SpecFloat.SFdiv prec emax.
Definition abs : double -> double := SpecFloat.SFabs.

(** [x < y] and [x === y]; both are false on NaN. *)
Definition ltb : double -> double -> bool := SpecFloat.SFltb.
Definition eqb : double -> double -> bool := SpecFloat.SFeqb.

Definition isFinite (x : double) : bool :=
  match x with
  | SpecFloat.S754_zero _ | SpecFloat.S754_finite _ _ _ => true
  | _ => false
  end.

(** The quotient of numerator by denominator, computed in doubles. *)
Definition ofQ (q : Q) : double := div (ofZ (Qnum q)) (ofZ (Zpos (Qden q))).

End Double.

(** [(a - b) / LAMPORTS_PER_SOL] as the program computes it. *)
Definition solDouble (a b : Z) : Double.double :=
  Double.div (Double.sub (Double.ofZ a) (Double.ofZ b))
             (Double.ofZ (Zpos LAMPORTS_PER_SOL)).
Arguments solDouble : simpl never.

(** *** The monad of code that calls the node *)

Definition M (World A : Type) : Type := World -> Result exn A * World.

Definition ret {World A} (a : A) : M World A := fun w => (Ok a, w).

Definition bind {World A B} (m : M World A) (k : A -> M World B) : M World B :=
  fun w =>
    match m w with
    | (Ok a, w') => k a w'
    | (Throw e, w') => (Throw e, w')
    end.

Definition raise {World A} (e : exn) : M World A := fun w => (Throw e, w).

Definition liftResult {World A} (r : Result exn A) : M World A := fun w => (r, w).

(** [try { body } catch (error) { return handler(error) }]. *)
Definition tryCatch {World A} (body : M World A) (handler : exn -> A)
  : World -> A * World :=
  fun w =>
    match body w with
    | (Ok a, w') => (a, w')
    | (Throw e, w') => (handler e, w')
    end.

Definition liftTotal {World A} (f : World -> A * World) : M World A :=
  fun w => let '(a, w') := f w in (Ok a, w').

Declare Scope node_scope.
Delimit Scope node_scope with node.
Notation "x <- m ;; k" := (bind m (fun x => k))
  (at level 61, m at next level, right associativity) : node_scope.

(* ===================================================================== *)
(** ** utils/txParser.ts *)
(* ===================================================================== *)

Record TransferDetail : Type := mkTransfer {
  from : string;
  to : string;
  amount : Q
}.

Record TransactionAnalysis : Type := mkAnalysis {
  ta_signature : string;
  ta_timestamp : option Z;
  outgoingTransfers : list TransferDetail;
  incomingTransfers : list TransferDetail;
  ta_accountKeys : list string
}.

(** [ak.pubkey.toBase58()]: a TypeError unless [pubkey] is a PublicKey. *)
Definition pubkeyToBase58 (ak : AccountKeyEntry) : Result exn string :=
  match ak with
  | EntryPubkeyObject a => Ok a
  | _ => Throw (ErrorObject "TypeError")
  end.

(** The loop [for (let i = 0; i < addresses.length; i++)] of
    [fetchAndParseTransaction], started at index [i] on the remaining
    addresses; it gives the two arrays in push order. *)
Fixpoint analyzeBalances (remaining : list string) (i : nat)
    (preBalances postBalances : list Z)
  : list TransferDetail * list TransferDetail :=
  match remaining with
  | [] => ([], [])
  | a :: rest =>
      let diff := sol (balanceAt preBalances i - balanceAt postBalances i) in
      let '(outs, ins) := analyzeBalances rest (S i) preBalances postBalances in
      if Qltb 0 diff then (mkTransfer a "multiple" diff :: outs, ins)
      else if Qltb diff 0 then (outs, mkTransfer "multiple" a (Qabs diff) :: ins)
      else (outs, ins)
  end.

(** [x || undefined] on a block time. *)
Definition truthyTime (t : option Z) : option Z :=
  match t with
  | Some 0 => None
  | _ => t
  end.

Section TxParser.
Context {World : Type} (host : Host World).
Local Open Scope node_scope.

Definition fetchAndParseTransaction (connection : Connection) (sig : string)
  : World -> option TransactionAnalysis * World :=
  tryCatch
    (tx <- getParsedTransaction host connection sig ;;
     match tx with
     | None => ret None
     | Some tx =>
         (* tx.meta?.preBalances || [] *)
         let pre := match meta tx with Some m => preBalances m | None => [] end in
         let post := match meta tx with Some m => postBalances m | None => [] end in
         addresses <- liftResult (mapResult pubkeyToBase58 (accountKeys tx)) ;;
         let '(outs, ins) := analyzeBalances addresses 0 pre post in
         ret (Some (mkAnalysis sig (truthyTime (blockTime tx)) outs ins addresses))
     end)
    (fun _ => None).

End TxParser.

(* ===================================================================== *)
(** ** utils/scrutinyCheck.ts *)
(* ===================================================================== *)

Inductive ScrutinyCondition : Type :=
| LOOP_DETECTED
| FIRST_TIME_ACTIVITY
| NONE.

Record ScrutinyResult : Type := mkScrutiny {
  alertTriggered : bool;
  condition : ScrutinyCondition;
  previousInflowSource : option string;
  previousInflowSignature : option string;
  explanation : string
}.

(** The [accountKeys.map((entry: any) => ...)] of scrutinyCheck.ts and
    index.ts.  A [pubkey] that is the empty string is falsy, so the entry
    falls through to [String(entry)]. *)
Definition entryAddress (entry : AccountKeyEntry) : string :=
  match entry with
  | EntryString s => s
  | EntryPubkeyString EmptyString => "[object Object]"
  | EntryPubkeyString s => s
  | EntryPubkeyObject a => a
  | EntryOther shown => shown
  end.

(** [address.slice(0, 4)] and [address.slice(-4)]. *)
Definition sliceFirst4 (s : string) : string := substring 0 4 s.
Definition sliceLast4 (s : string) : string :=
  substring (String.length s - 4) 4 s.

Definition formatAddressShort (address : string) : string :=
  sliceFirst4 address ++ "..." ++ sliceLast4 address.

(** The inner loop over [j]: the first other account whose decrease
    [sourceDiff] satisfies [sourceDiff > 0 && sourceDiff === diff]. *)
Fixpoint findInflowSource (remaining : list string) (j i : nat)
    (preBalances postBalances : list Z) (diff : Double.double) : string :=
  match remaining with
  | [] => "UNKNOWN"
  | a :: rest =>
      if Nat.eqb j i
      then findInflowSource rest (S j) i preBalances postBalances diff
      else
        let sourceDiff :=
          solDouble (balanceAt preBalances j) (balanceAt postBalances j) in
        if Double.ltb Double.zero sourceDiff && Double.eqb sourceDiff diff then a
        else findInflowSource rest (S j) i preBalances postBalances diff
  end.

(** The outer loop over [i]; the result is [(inflowFound, inflowSource)]. *)
Fixpoint findInflow (remaining : list string) (i : nat) (addresses : list string)
    (recipientAddress : string) (preBalances postBalances : list Z)
  : bool * string :=
  match remaining with
  | [] => (false, "UNKNOWN")
  | a :: rest =>
      if String.eqb a recipientAddress then
        let diff := sol (balanceAt postBalances i - balanceAt preBalances i) in
        if Qltb 0 diff
        then (true, findInflowSource addresses 0 i preBalances postBalances
                      (solDouble (balanceAt postBalances i) (balanceAt preBalances i)))
        else findInflow rest (S i) addresses recipientAddress preBalances postBalances
      else findInflow rest (S i) addresses recipientAddress preBalances postBalances
  end.

Section ScrutinyCheck.
Context {World : Type} (host : Host World).
Local Open Scope node_scope.

Definition performScrutinyCheck (connection : Connection)
    (recipientAddress cexAddress cexLabel : string)
  : World -> ScrutinyResult * World :=
  tryCatch
    (recipientPk <-
       (if validPublicKey host recipientAddress then ret recipientAddress
        else raise (ErrorObject "Invalid public key input")) ;;
     signatures <- getSignaturesForAddress host connection recipientPk 1 ;;
     match signatures with
     | [] =>
         ret (mkScrutiny true FIRST_TIME_ACTIVITY None None
                "No previous transaction history found for recipient")
     | previousTx :: _ =>
         txDetails <- getParsedTransaction host connection (signature previousTx) ;;
         match txDetails with
         | None =>
             ret (mkScrutiny false NONE None None
                    "Could not parse previous transaction")
         | Some tx =>
             match meta tx with
             | None =>
                 ret (mkScrutiny false NONE None None
                        "Could not parse previous transaction")
             | Some m =>
                 let addresses := map entryAddress (accountKeys tx) in
                 let '(inflowFound, inflowSource) :=
                   findInflow addresses 0 addresses recipientAddress
                              (preBalances m) (postBalances m) in
                 if negb inflowFound then
                   ret (mkScrutiny true FIRST_TIME_ACTIVITY None
                          (Some (signature previousTx))
                          "No inflow detected in previous transaction")
                 else if String.eqb inflowSource cexAddress then
                   ret (mkScrutiny true LOOP_DETECTED (Some inflowSource)
                          (Some (signature previousTx))
                          (cexLabel ++ " → Recipient → " ++ cexLabel
                             ++ " (Loop detected)"))
                 else
                   ret (mkScrutiny false NONE (Some inflowSource)
                          (Some (signature previousTx))
                          ("Previous inflow from " ++ formatAddressShort inflowSource
                             ++ ", no loop detected"))
             end
         end
     end)
    (fun error =>
       mkScrutiny false NONE None None
         ("Error during scrutiny check: "
            ++ match error with
               | ErrorObject message => message
               | NonError => "Unknown"
               end)).

End ScrutinyCheck.

(* ===================================================================== *)
(** ** index.ts: the coordinator *)
(* ===================================================================== *)

Record DetectionEvent : Type := mkEvent {
  ev_timestamp : Z;
  ev_signature : string;
  cexLabel : string;
  cexAddress : string;
  recipientAddress : string;
  outgoingAmount : Q;
  matchedRange : Range;
  scrutinyResult : ScrutinyResult
}.

(** [accountKeys.indexOf(address)]; [None] stands for [-1]. *)
Fixpoint indexOf (x : string) (l : list string) : option nat :=
  match l with
  | [] => None
  | y :: rest =>
      if String.eqb y x then Some 0%nat
      else option_map S (indexOf x rest)
  end.

(** The tolerance [0.0001] of the recipient scan. *)
Definition TOLERANCE : Q := 1 # 10000.

(** The double that the literal [0.0001] denotes: the one nearest to
    1/10000, which is [7378697629483821 * 2^-66]. *)
Definition TOLERANCE_DOUBLE : Double.double :=
  Double.div (Double.ofZ 1) (Double.ofZ 10000).

(** The loop of lines 144-156, started at index [i] on the remaining
    addresses; the result is the final value of [recipientAddress]
    ([None] for [null]). *)
Fixpoint findRecipient (remaining : list string) (i : nat)
    (preBalances postBalances : list Z) (cexAccountIndex : nat)
    (outgoingAmount : Double.double) : option string :=
  match remaining with
  | [] => None
  | a :: rest =>
      if Nat.eqb i cexAccountIndex
      then findRecipient rest (S i) preBalances postBalances cexAccountIndex outgoingAmount
      else
        let diff := solDouble (balanceAt postBalances i) (balanceAt preBalances i) in
        if Double.ltb (Double.abs (Double.sub diff outgoingAmount)) TOLERANCE_DOUBLE
        then Some a
        else findRecipient rest (S i) preBalances postBalances cexAccountIndex outgoingAmount
  end.

Section Coordinator.
Context {World : Type} (host : Host World).
Variable config : Env.Config.
Local Open Scope node_scope.

(** The global [connection] of [startListener]. *)
Definition connection : Connection :=
  mkConnection (Env.rpcEndpoint config) (Some "confirmed").

(** One iteration of [for (const cexWallet of config.cexWallets)].
    [Ok None] is an iteration left by [continue]; [Ok (Some ev)] is one that
    reached [handleDetection(ev)], which only writes to the console; [Throw]
    leaves the loop for the [catch] of [processLogEvent].  The variable
    [outgoingAmount] appears twice: as the exact quotient, for the sign test,
    the ranges and the event, and as the double the program holds, for the
    tolerance test of the recipient scan. *)
Definition processWallet (sig : string) (txAnalysis : TransactionAnalysis)
    (cexWallet : Env.CEXWallet) : M World (option DetectionEvent) :=
  match indexOf (Env.address cexWallet) (ta_accountKeys txAnalysis) with
  | None => ret None
  | Some cexAccountIndex =>
      let connection2 := mkConnection (Env.rpcEndpoint config) None in
      tx <- getParsedTransaction host connection2 sig ;;
      match tx with
      | None => ret None
      | Some tx =>
          match meta tx with
          | None => ret None
          | Some m =>
              let outgoingAmount :=
                sol (balanceAt (preBalances m) cexAccountIndex
                     - balanceAt (postBalances m) cexAccountIndex) in
              let outgoingDouble :=
                solDouble (balanceAt (preBalances m) cexAccountIndex)
                          (balanceAt (postBalances m) cexAccountIndex) in
              if Qle_bool outgoingAmount 0 then ret None
              else if negb (RangeParser.isAmountInRange (JS.Finite outgoingAmount)
                              (Env.ranges cexWallet))
              then ret None
              else
                match RangeParser.getMatchingRange (JS.Finite outgoingAmount)
                        (Env.ranges cexWallet) with
                | None => ret None
                | Some matchedRange =>
                    let addresses := map entryAddress (accountKeys tx) in
                    match findRecipient addresses 0 (preBalances m) (postBalances m)
                            cexAccountIndex outgoingDouble with
                    | None => ret None
                    | Some EmptyString => ret None   (* !recipientAddress *)
                    | Some recipientAddress =>
                        scrutinyResult <-
                          liftTotal (performScrutinyCheck host connection
                                       recipientAddress (Env.address cexWallet)
                                       (Env.label cexWallet)) ;;
                        timestamp <- (fun w => (Ok (dateNow host w), w)) ;;
                        ret (Some (mkEvent timestamp sig (Env.label cexWallet)
                                     (Env.address cexWallet) recipientAddress
                                     outgoingAmount matchedRange scrutinyResult))
                    end
                end
          end
      end
  end.

(** The loop over the wallets inside [try]: the events handed to
    [handleDetection], in order, up to the first exception. *)
Fixpoint processWallets (sig : string) (txAnalysis : TransactionAnalysis)
    (wallets : list Env.CEXWallet) (w : World) : list DetectionEvent * World :=
  match wallets with
  | [] => ([], w)
  | cexWallet :: rest =>
      match processWallet sig txAnalysis cexWallet w with
      | (Throw _, w') => ([], w')
      | (Ok None, w') => processWallets sig txAnalysis rest w'
      | (Ok (Some ev), w') =>
          let '(evs, w'') := processWallets sig txAnalysis rest w' in
          (ev :: evs, w'')
      end
  end.

(** [processLogEvent(signature, logs)]: the events it emits. *)
Definition processLogEvent (sig : string) (logs : list string) (w : World)
  : list DetectionEvent * World :=
  match fetchAndParseTransaction host connection sig w with
  | (None, w') => ([], w')
  | (Some txAnalysis, w') =>
      processWallets sig txAnalysis (Env.cexWallets config) w'
  end.

End Coordinator.

(* ===================================================================== *)
(** ** utils/websocket.ts *)
(* ===================================================================== *)

Module WebSocket.

Inductive ReadyState : Type := CONNECTING | OPEN | CLOSING | CLOSED.

(** The part of a parsed JSON value the listener looks at: [message.result]
    is absent, a number, or an object whose [value] field, when present,
    carries [{signature, logs}]. *)
Inductive JValue : Type :=
| JUndefined
| JNumber (n : Z)
| JObject (value : option (string * list string)).

Definition truthy (v : JValue) : bool :=
  match v with
  | JUndefined => false
  | JNumber n => negb (n =? 0)
  | JObject _ => true
  end.

Record Message : Type := mkMessage {
  result : JValue;
  method : option string
}.

Record WebSocketConfig : Type := mkWsConfig {
  ws_endpoint : string;
  mentions : list string
}.

(** The fields of the class; [ws] is [None] for [null], otherwise the ready
    state of the current socket. *)
Record WebSocketListener : Type := mkListener {
  ws : option ReadyState;
  config : WebSocketConfig;
  subscriptionId : JValue;
  reconnectAttempts : nat;
  maxReconnectAttempts : nat;
  reconnectDelay : Z;
  isManualClose : bool;
  onLog : bool              (* a handler is registered *)
}.

(** [new WebSocketListener(config)]. *)
Definition create (config : WebSocketConfig) : WebSocketListener :=
  mkListener None config JUndefined 0 10 3000 false false.

(** What a handler does to the outside. *)
Inductive Action : Type :=
| OpenSocket (endpoint : string)           (* new WebSocket(endpoint) *)
| SendSubscribe (mentions : list string)   (* ws.send(logsSubscribe) *)
| SetTimeout (delay : Z)                   (* setTimeout(connect, delay) *)
| CallOnLog (sig : string) (logs : list string)
| CloseSocket
| GiveUp.                                  (* "Max reconnect attempts reached" *)

(** What happens to the listener. *)
Inductive Event : Type :=
| CallConnect                      (* connect() from the application *)
| CallClose                        (* close() *)
| OnOpen
| OnMessage (data : option Message) (* [None]: JSON.parse throws *)
| OnError
| OnClose
| TimerFired.                      (* the callback of setTimeout *)

Definition setWs (l : WebSocketListener) (s : option ReadyState) :=
  mkListener s (config l) (subscriptionId l) (reconnectAttempts l)
    (maxReconnectAttempts l) (reconnectDelay l) (isManualClose l) (onLog l).

Definition setAttempts (l : WebSocketListener) (n : nat) :=
  mkListener (ws l) (config l) (subscriptionId l) n
    (maxReconnectAttempts l) (reconnectDelay l) (isManualClose l) (onLog l).

Definition setSubscriptionId (l : WebSocketListener) (v : JValue) :=
  mkListener (ws l) (config l) v (reconnectAttempts l)
    (maxReconnectAttempts l) (reconnectDelay l) (isManualClose l) (onLog l).

Definition setManualClose (l : WebSocketListener) (b : bool) :=
  mkListener (ws l) (config l) (subscriptionId l) (reconnectAttempts l)
    (maxReconnectAttempts l) (reconnectDelay l) b (onLog l).

Definition connect (l : WebSocketListener) : WebSocketListener * list Action :=
  (setWs l (Some CONNECTING), [OpenSocket (ws_endpoint (config l))]).

Definition subscribe (l : WebSocketListener) : list Action :=
  match ws l with
  | Some OPEN => [SendSubscribe (mentions (config l))]
  | _ => []
  end.

(** [reconnectDelay * Math.pow(2, attempt - 1)]. *)
Definition backoff (reconnectDelay : Z) (attempt : nat) : Z :=
  reconnectDelay * 2 ^ Z.of_nat (attempt - 1).

Definition reconnect (l : WebSocketListener) : WebSocketListener * list Action :=
  if Nat.leb (maxReconnectAttempts l) (reconnectAttempts l) then (l, [GiveUp])
  else
    let l' := setAttempts l (S (reconnectAttempts l)) in
    (l', [SetTimeout (backoff (reconnectDelay l') (reconnectAttempts l'))]).

Definition handleLogsNotification (l : WebSocketListener) (m : Message)
  : list Action :=
  match result m with
  | JObject (Some (sig, logs)) => if onLog l then [CallOnLog sig logs] else []
  | _ => []   (* TypeError, caught by handleMessage *)
  end.

Definition handleMessage (l : WebSocketListener) (data : option Message)
  : WebSocketListener * list Action :=
  match data with
  | None => (l, [])
  | Some m =>
      if truthy (result m) && negb (truthy (subscriptionId l))
      then (setSubscriptionId l (result m), [])
      else
        match method m with
        | Some name =>
            if String.eqb name "logsNotification"
            then (l, handleLogsNotification l m)
            else (l, [])
        | None => (l, [])
        end
  end.

Definition close (l : WebSocketListener) : WebSocketListener * list Action :=
  let l' := setManualClose l true in
  match ws l' with
  | Some _ => (setWs l' None, [CloseSocket])
  | None => (l', [])
  end.

(** One handler run. *)
Definition step (l : WebSocketListener) (e : Event)
  : WebSocketListener * list Action :=
  match e with
  | CallConnect => connect l
  | TimerFired => connect l
  | CallClose => close l
  | OnOpen =>
      let l1 := match ws l with Some _ => setWs l (Some OPEN) | None => l end in
      let l2 := setAttempts l1 0 in
      (l2, subscribe l2)
  | OnMessage data => handleMessage l data
  | OnError => (l, [])
  | OnClose =>
      let l1 := match ws l with Some _ => setWs l (Some CLOSED) | None => l end in
      if isManualClose l1 then (l1, []) else reconnect l1
  end.

Fixpoint run (l : WebSocketListener) (es : list Event)
  : WebSocketListener * list Action :=
  match es with
  | [] => (l, [])
  | e :: rest =>
      let '(l1, a1) := step l e in
      let '(l2, a2) := run l1 rest in
      (l2, (a1 ++ a2)%list)
  end.

(** The listener has recorded a subscription identifier. *)
Definition subscribed (l : WebSocketListener) : bool := truthy (subscriptionId l).

End WebSocket.


(* ===================================================================== *)
(** ** Vocabulary of the statements *)
(* ===================================================================== *)

(** A segment of a range string one of whose bounds is not a number. *)
Definition nonNumeric (range : string) : bool :=
  JS.isNaN (fst (segmentBounds range)) || JS.isNaN (snd (segmentBounds range)).

(** The balance arrays of a transaction, empty when it has no metadata. *)
Definition preOf (tx : ParsedTransactionWithMeta) : list Z :=
  match meta tx with Some m => preBalances m | None => [] end.
Definition postOf (tx : ParsedTransactionWithMeta) : list Z :=
  match meta tx with Some m => postBalances m | None => [] end.

(** Decrease and increase, in SOL, of the balance at index [i]; an absent
    entry counts as zero. *)
Definition decrease (pre post : list Z) (i : nat) : Q :=
  sol (balanceAt pre i - balanceAt post i).
Definition increase (pre post : list Z) (i : nat) : Q :=
  sol (balanceAt post i - balanceAt pre i).

(** A node without state that answers from two fixed tables. *)
Definition tableHost
    (valid : string -> bool)
    (signatures : string -> Result exn (list ConfirmedSignatureInfo))
    (transactions : string -> Result exn (option ParsedTransactionWithMeta))
  : Host unit :=
  mkHost unit valid
    (fun _ address _ w => (signatures address, w))
    (fun _ sig w => (transactions sig, w))
    (fun _ => 0).

(** The transfers the analyzer is to record for an address list: one per
    index whose balance decreased (outgoing) or increased (incoming), in
    index order. *)
Definition outgoingOf (addresses : list string) (pre post : list Z)
  : list TransferDetail :=
  map (fun i => mkTransfer (nth i addresses "") "multiple" (decrease pre post i))
      (filter (fun i => Qltb 0 (decrease pre post i))
              (seq 0 (List.length addresses))).

Definition incomingOf (addresses : list string) (pre post : list Z)
  : list TransferDetail :=
  map (fun i => mkTransfer "multiple" (nth i addresses "")
                  (Qabs (decrease pre post i)))
      (filter (fun i => Qltb (decrease pre post i) 0)
              (seq 0 (List.length addresses))).

(** The recipient sits at index [i] of the address list and its balance
    rose there. *)
Definition positiveInflowAt (addresses : list string) (recipient : string)
    (pre post : list Z) (i : nat) : Prop :=
  nth_error addresses i = Some recipient /\ (0 < increase pre post i)%Q.

(** A step of the scrutiny check fails, from world [w] to world [w']: the
    recipient is not a public key, the signature lookup throws, the fetch of
    the previous transaction throws, or the previous transaction is missing
    or has no metadata. *)
Inductive ScrutinyStepFails {World : Type} (host : Host World)
    (connection : Connection) (recipient : string) : World -> World -> Prop :=
| FailInvalidKey w :
    validPublicKey host recipient = false ->
    ScrutinyStepFails host connection recipient w w
| FailLookup w e w1 :
    validPublicKey host recipient = true ->
    getSignaturesForAddress host connection recipient 1 w = (Throw e, w1) ->
    ScrutinyStepFails host connection recipient w w1
| FailFetch w previousTx rest w1 e w2 :
    validPublicKey host recipient = true ->
    getSignaturesForAddress host connection recipient 1 w
      = (Ok (previousTx :: rest), w1) ->
    getParsedTransaction host connection (signature previousTx) w1
      = (Throw e, w2) ->
    ScrutinyStepFails host connection recipient w w2
| FailNotFound w previousTx rest w1 w2 :
    validPublicKey host recipient = true ->
    getSignaturesForAddress host connection recipient 1 w
      = (Ok (previousTx :: rest), w1) ->
    getParsedTransaction host connection (signature previousTx) w1
      = (Ok None, w2) ->
    ScrutinyStepFails host connection recipient w w2
| FailNoMeta w previousTx rest w1 tx w2 :
    validPublicKey host recipient = true ->
    getSignaturesForAddress host connection recipient 1 w
      = (Ok (previousTx :: rest), w1) ->
    getParsedTransaction host connection (signature previousTx) w1
      = (Ok (Some tx), w2) ->
    meta tx = None ->
    ScrutinyStepFails host connection recipient w w2.

(** The recipient-identification heuristic of the coordinator run in
    reverse, as the specification words the search for the inflow source: the
    first address, other than the recipient's index, whose balance decrease
    is within [TOLERANCE] of the inflow.  Swapping the two balance arrays
    turns the increase that [findRecipient] measures into a decrease. *)
Definition reverseHeuristicSource (addresses : list string) (pre post : list Z)
    (recipientIndex : nat) (inflow : Q) : option string :=
  findRecipient addresses 0 post pre recipientIndex (Double.ofQ inflow).

(** Decrease and increase of the balance at index [i], in SOL, as the doubles
    the program computes. *)
Definition decreaseDouble (pre post : list Z) (i : nat) : Double.double :=
  solDouble (balanceAt pre i) (balanceAt post i).
Definition increaseDouble (pre post : list Z) (i : nat) : Double.double :=
  solDouble (balanceAt post i) (balanceAt pre i).

(** The test of the inner loop of the scrutiny check at index [n]:
    [sourceDiff > 0 && sourceDiff === diff]. *)
Definition exactSourceAt (pre post : list Z) (i : nat) (diff : Double.double)
    (n : nat) : Prop :=
  n <> i /\
  Double.ltb Double.zero (decreaseDouble pre post n) = true /\
  Double.eqb (decreaseDouble pre post n) diff = true.

(** The test of the recipient scan at index [i]:
    [Math.abs(diff - outgoingAmount) < 0.0001], in doubles. *)
Definition withinTolerance (pre post : list Z) (amount : Double.double)
    (i : nat) : Prop :=
  Double.ltb (Double.abs (Double.sub (increaseDouble pre post i) amount))
             TOLERANCE_DOUBLE = true.

(** The gap between the exact increase at index [i] and an exact amount. *)
Definition exactGap (pre post : list Z) (amount : Q) (i : nat) : Q :=
  Qabs (increase pre post i - amount).

(** The iterations of the wallets [ws] all return, leading from world [w] to
    world [w']. *)
Inductive RunsThrough {World : Type} (host : Host World) (config : Env.Config)
    (sig : string) (txAnalysis : TransactionAnalysis)
  : list Env.CEXWallet -> World -> World -> Prop :=
| RunsNil w : RunsThrough host config sig txAnalysis [] w w
| RunsCons cw rest w o w1 w2 :
    processWallet host config sig txAnalysis cw w = (Ok o, w1) ->
    RunsThrough host config sig txAnalysis rest w1 w2 ->
    RunsThrough host config sig txAnalysis (cw :: rest) w w2.

(** [xs] is [ys] with some elements left out, the order kept. *)
Inductive Subsequence {A : Type} : list A -> list A -> Prop :=
| SubNil : Subsequence [] []
| SubSkip x xs ys : Subsequence xs ys -> Subsequence xs (x :: ys)
| SubKeep x xs ys : Subsequence xs ys -> Subsequence (x :: xs) (x :: ys).

(** The wallet an event names, and the wallet of a configuration entry. *)
Definition eventWallet (ev : DetectionEvent) : string * string :=
  (cexLabel ev, cexAddress ev).
Definition configWallet (cw : Env.CEXWallet) : string * string :=
  (Env.label cw, Env.address cw).

(** The delays of the timers among some actions, in order. *)
Fixpoint timeouts (actions : list WebSocket.Action) : list Z :=
  match actions with
  | [] => []
  | WebSocket.SetTimeout delay :: rest => delay :: timeouts rest
  | _ :: rest => timeouts rest
  end.

(** [n] connection attempts that each end in a close before opening. *)
Fixpoint failedAttempts (n : nat) : list WebSocket.Event :=
  match n with
  | O => []
  | S k => WebSocket.OnClose :: WebSocket.TimerFired :: failedAttempts k
  end.

(* ===================================================================== *)
(** ** utils/env.ts: loadConfig *)
(* ===================================================================== *)

(** [process.env]: finitely many variables, each with a string value. *)
Definition ProcessEnv : Type := list (string * string).

(** [process.env[key]]; [None] for [undefined]. *)
Fixpoint getenv (env : ProcessEnv) (key : string) : option string :=
  match env with
  | [] => None
  | (k, v) :: rest => if String.eqb k key then Some v else getenv rest key
  end.

(** The test [!value] fails: the variable is set and is not empty. *)
Definition isSet (value : option string) : bool :=
  match value with
  | Some (String _ _) => true
  | _ => false
  end.

(** [`${index}`] for a counter. *)
Definition indexString (index : nat) : string :=
  DecimalString.NilEmpty.string_of_uint (Nat.to_uint index).

(** [`CEX_${index}_LABEL`] and its two companions. *)
Definition labelKey (index : nat) : string := "CEX_" ++ indexString index ++ "_LABEL".
Definition addressKey (index : nat) : string := "CEX_" ++ indexString index ++ "_ADDRESS".
Definition rangeKey (index : nat) : string := "CEX_" ++ indexString index ++ "_RANGE".

(** What [loadConfig] throws: [Error('RPC_ENDPOINT not set in .env')],
    [Error('No CEX wallets configured in .env')], or the error of
    [parseRanges]. *)
Inductive ConfigError : Type :=
| RpcEndpointNotSet
| NoWalletsConfigured
| InvalidRanges (e : RangeError).

(** The [while (true)] loop from [index] on, with a bound on the number of
    iterations; [None] when the bound is used up. *)
Fixpoint loadWallets (fuel : nat) (env : ProcessEnv) (index : nat)
  : option (Result ConfigError (list Env.CEXWallet)) :=
  match fuel with
  | O => None
  | S fuel' =>
      let label := getenv env (labelKey index) in
      let address := getenv env (addressKey index) in
      let rangeStr := getenv env (rangeKey index) in
      match label, address, rangeStr with
      | Some label', Some address', Some rangeStr' =>
          if isSet label && isSet address && isSet rangeStr then
            match Env.parseRanges rangeStr' with
            | Throw e => Some (Throw (InvalidRanges e))
            | Ok ranges =>
                match loadWallets fuel' env (S index) with
                | Some (Ok wallets) =>
                    Some (Ok (Env.mkCEXWallet label' address' ranges :: wallets))
                | other => other
                end
            end
          else Some (Ok [])
      | _, _, _ => Some (Ok [])
      end
  end.

Definition loadConfigWith (fuel : nat) (env : ProcessEnv)
  : option (Result ConfigError Env.Config) :=
  match getenv env "RPC_ENDPOINT" with
  | Some (String c r) =>
      match loadWallets fuel env 1 with
      | None => None
      | Some (Throw e) => Some (Throw e)
      | Some (Ok []) => Some (Throw NoWalletsConfigured)
      | Some (Ok wallets) => Some (Ok (Env.mkConfig (String c r) wallets))
      end
  | _ => Some (Throw RpcEndpointNotSet)
  end.

(** [loadConfig()]: one more iteration than there are variables is enough. *)
Definition loadConfig (env : ProcessEnv) : option (Result ConfigError Env.Config) :=
  loadConfigWith (S (List.length env)) env.

(** The group of index [i] is complete: its three variables are set. *)
Definition groupComplete (env : ProcessEnv) (i : nat) : bool :=
  isSet (getenv env (labelKey i)) && isSet (getenv env (addressKey i))
  && isSet (getenv env (rangeKey i)).

(* ===================================================================== *)
(** ** index.ts: the WebSocket endpoint and the handler of startListener *)
(* ===================================================================== *)

Fixpoint dropString (n : nat) (s : string) : string :=
  match n, s with
  | O, _ => s
  | S n', String _ r => dropString n' r
  | S _, EmptyString => EmptyString
  end.

(** [s.replace(pattern, replacement)] for a string pattern and a replacement
    without [$]: the first occurrence is replaced. *)
Fixpoint replaceFirst (pattern replacement s : string) : string :=
  if String.prefix pattern s
  then replacement ++ dropString (String.length pattern) s
  else match s with
       | EmptyString => EmptyString
       | String c r => String c (replaceFirst pattern replacement r)
       end.

(** The pattern occurs somewhere in the string. *)
Fixpoint occurs (pattern s : string) : bool :=
  String.prefix pattern s
  || match s with
     | EmptyString => false
     | String _ r => occurs pattern r
     end.

(** [rpcEndpoint.replace('https://', 'wss://').replace('http://', 'ws://')]. *)
Definition wsEndpointOf (rpcEndpoint : string) : string :=
  replaceFirst "http://" "ws://" (replaceFirst "https://" "wss://" rpcEndpoint).

(** [wsListener.onLog = processLogEvent]. *)
Definition registerOnLog (l : WebSocket.WebSocketListener)
  : WebSocket.WebSocketListener :=
  WebSocket.mkListener (WebSocket.ws l) (WebSocket.config l)
    (WebSocket.subscriptionId l) (WebSocket.reconnectAttempts l)
    (WebSocket.maxReconnectAttempts l) (WebSocket.reconnectDelay l)
    (WebSocket.isManualClose l) true.

(** The number of timers among some actions. *)
Definition timerCount (actions : list WebSocket.Action) : nat :=
  List.length (timeouts actions).

(** The wallet [w] is what the three variables of group [i] describe. *)
Definition walletOfGroup (env : ProcessEnv) (i : nat) (w : Env.CEXWallet) : Prop :=
  getenv env (labelKey i) = Some (Env.label w) /\ Env.label w <> "" /\
  getenv env (addressKey i) = Some (Env.address w) /\ Env.address w <> "" /\
  exists rangeStr,
    getenv env (rangeKey i) = Some rangeStr /\ rangeStr <> "" /\
    Env.parseRanges rangeStr = Ok (Env.ranges w).

(** A socket is opened to the endpoint of the settings and a subscription
    request mentions their addresses. *)
Definition actionOf (cfg : WebSocket.WebSocketConfig) (a : WebSocket.Action)
  : Prop :=
  match a with
  | WebSocket.OpenSocket endpoint => endpoint = WebSocket.ws_endpoint cfg
  | WebSocket.SendSubscribe addresses => addresses = WebSocket.mentions cfg
  | _ => True
  end.

(** The range can contain an amount at all: neither bound is NaN and
    [min <= max]. *)
Definition wellOrdered (r : Range) : bool := JS.leb (min r) (max r).
(* ===================================================================== *)
(** * Properties *)
(* ===================================================================== *)

(** ** Numbers *)

Lemma Qltb_lt (x y : Q) : Qltb x y = true <-> (x < y)%Q.
Proof.
  unfold Qltb. rewrite negb_true_iff. split.
  - intro H. apply Qnot_le_lt. intro L.
    apply Qle_bool_iff in L. congruence.
  - intro H. destruct (Qle_bool y x) eqn:E; [|reflexivity].
    apply Qle_bool_iff in E. exfalso. exact (Qlt_not_le _ _ H E).
Qed.

Lemma Qltb_ge (x y : Q) : Qltb x y = false <-> (y <= x)%Q.
Proof.
  unfold Qltb. rewrite negb_false_iff. apply Qle_bool_iff.
Qed.

Lemma leb_le (a b : JS.number) : JS.leb a b = true <-> JS.le a b.
Proof.
  destruct a, b; simpl; try (split; [discriminate | contradiction]);
    try (split; trivial).
  - apply Qle_bool_iff.
  - apply Qle_bool_iff.
Qed.

Lemma ltb_lt (a b : JS.number) : JS.ltb a b = true <-> JS.lt a b.
Proof.
  destruct a, b; simpl; try (split; [discriminate | contradiction]);
    try (split; trivial).
  - apply Qltb_lt.
  - apply Qltb_lt.
Qed.

(** On numbers that are not NaN the order is total. *)
Lemma not_gtb_le (a b : JS.number) :
  JS.isNaN a = false -> JS.isNaN b = false ->
  JS.gtb a b = false -> JS.le a b.
Proof.
  unfold JS.gtb.
  destruct a, b; simpl; intros Ha Hb H; try discriminate; trivial.
  apply Qltb_ge in H. exact H.
Qed.

Lemma le_refl_iff (a : JS.number) : JS.le a a <-> JS.isNaN a = false.
Proof.
  destruct a; simpl; split; intros; try easy. apply Qle_refl.
Qed.

Lemma le_not_NaN (a b : JS.number) :
  JS.le a b -> JS.isNaN a = false /\ JS.isNaN b = false.
Proof. destruct a, b; simpl; intuition. Qed.

(** [Number], [trim] and [split] on the strings that range parsing meets. *)
Example Number_examples :
  JS.Number "13" = JS.Finite 13 /\
  JS.Number " 1.50 " = JS.Finite (3 # 2) /\
  JS.Number "2.5e-1" = JS.Finite (1 # 4) /\
  JS.Number "" = JS.Finite 0 /\
  JS.Number "0x1F" = JS.Finite 31 /\
  JS.Number "Infinity" = JS.PosInfinity /\
  JS.Number "12px" = JS.NaN /\
  JS.Number "." = JS.NaN /\
  JS.Number "1e" = JS.NaN.
Proof. repeat split; vm_compute; reflexivity. Qed.

(** NBSP is white space, and a literal beyond the largest double is read
    as an infinity. *)
Example Number_edge_examples :
  JS.Number (String (Ascii.ascii_of_nat 160) "7") = JS.Finite 7 /\
  JS.Number "1e308" = JS.Finite (inject_Z (10 ^ 308)) /\
  JS.Number "1e400" = JS.PosInfinity /\
  JS.Number "-1e400" = JS.NegInfinity /\
  JS.Number "1.8e308" = JS.PosInfinity.
Proof. repeat split; vm_compute; reflexivity. Qed.

Example split_examples :
  JS.split "," "13-15,14-26" = ["13-15"; "14-26"] /\
  JS.split "-" "-5-10" = [""; "5"; "10"] /\
  JS.split "," "" = [""] /\
  JS.trim "  a b  " = "a b".
Proof. repeat split. Qed.

(** ** RangeMatcher *)

Section RangeMatcher.
Import RangeParser.

Lemma inRange_inside amount r : inRange amount r = true <-> inside amount r.
Proof.
  unfold inRange, inside, JS.geb. rewrite andb_true_iff, !leb_le. tauto.
Qed.

Lemma inRange_outside amount r : inRange amount r = false <-> ~ inside amount r.
Proof.
  rewrite <- inRange_inside. destruct (inRange amount r); intuition congruence.
Qed.

Lemma isAmountInRange_iff amount ranges :
  isAmountInRange amount ranges = true <->
  exists r, In r ranges /\ inside amount r.
Proof.
  unfold isAmountInRange. rewrite existsb_exists.
  split; intros (r & Hin & H); exists r; split; trivial;
    now apply inRange_inside.
Qed.

(** [find] returns the element that follows the longest prefix on which the
    test fails. *)
Lemma getMatchingRange_first amount ranges r :
  getMatchingRange amount ranges = Some r <->
  exists before after,
    ranges = (before ++ r :: after)%list /\
    inside amount r /\
    Forall (fun r' => ~ inside amount r') before.
Proof.
  unfold getMatchingRange. induction ranges as [|x rest IH]; simpl.
  - split; [discriminate|]. intros (b & a & E & _).
    destruct b; discriminate.
  - destruct (inRange amount x) eqn:Ex.
    + split.
      * intros [= <-]. exists [], rest. simpl.
        repeat split; try constructor; now apply inRange_inside.
      * intros (b & a & E & Hr & Hb). destruct b as [|y b]; simpl in E.
        -- now injection E as ->.
        -- injection E as <- _. inversion Hb; subst.
           apply inRange_inside in Ex. contradiction.
    + rewrite IH. split.
      * intros (b & a & -> & Hr & Hb). exists (x :: b), a. simpl.
        repeat split; trivial; try apply Hr. constructor; trivial.
        now apply inRange_outside.
      * intros (b & a & E & Hr & Hb). destruct b as [|y b]; simpl in E.
        -- injection E as -> _. apply inRange_inside in Hr. congruence.
        -- injection E as <- ->. inversion Hb; subst.
           exists b, a. repeat split; trivial; apply Hr.
Qed.

Lemma getMatchingRange_none amount ranges :
  getMatchingRange amount ranges = None <->
  forall r, In r ranges -> ~ inside amount r.
Proof.
  unfold getMatchingRange. split.
  - intros H r Hin Hr. apply inRange_inside in Hr.
    pose proof (find_none _ _ H r Hin). congruence.
  - intro H. destruct (find (inRange amount) ranges) as [r|] eqn:E; trivial.
    apply find_some in E as [Hin Hr]. apply inRange_inside in Hr.
    exfalso. exact (H r Hin Hr).
Qed.

Lemma finite_below_outside (lo hi eps : Q) :
  (0 < eps)%Q ->
  inRange (JS.Finite (lo - eps)) (mkRange (JS.Finite lo) (JS.Finite hi)) = false.
Proof.
  intro He. apply inRange_outside. unfold inside. simpl. intros [H _].
  apply (Qlt_not_le (lo - eps) lo); trivial.
  rewrite <- (Qplus_0_r lo) at 2. unfold Qminus.
  apply Qplus_lt_r. apply (Qopp_lt_compat 0 eps) in He. exact He.
Qed.

Lemma finite_above_outside (lo hi eps : Q) :
  (0 < eps)%Q ->
  inRange (JS.Finite (hi + eps)) (mkRange (JS.Finite lo) (JS.Finite hi)) = false.
Proof.
  intro He. apply inRange_outside. unfold inside. simpl. intros [_ H].
  apply (Qlt_not_le hi (hi + eps)); trivial.
  rewrite <- (Qplus_0_r hi) at 1. now apply Qplus_lt_r.
Qed.

(** C3. On ranges with [min <= max], [isAmountInRange] holds exactly when some
    range contains the amount, both bounds included: the bounds of every
    range match, while [min - eps] and [max + eps] fall outside the range
    for every positive [eps]; and [getMatchingRange] returns the first
    range, in declaration order, that contains the amount.  On the ranges
    parsed from "13-15,14-26" the amount 14 gives 13-15. *)
Theorem C3_range_matching (amount : JS.number) (ranges : list Range)
    (Hwf : Forall (fun r => JS.le (min r) (max r)) ranges) :
  (isAmountInRange amount ranges = true <->
     exists r, In r ranges /\ JS.le (min r) amount /\ JS.le amount (max r))
  /\ (forall r, In r ranges ->
        isAmountInRange (min r) ranges = true /\
        isAmountInRange (max r) ranges = true)
  /\ (forall lo hi eps : Q, (0 < eps)%Q ->
        isAmountInRange (JS.Finite (lo - eps))
          [mkRange (JS.Finite lo) (JS.Finite hi)] = false /\
        isAmountInRange (JS.Finite (hi + eps))
          [mkRange (JS.Finite lo) (JS.Finite hi)] = false)
  /\ (forall r,
        getMatchingRange amount ranges = Some r <->
        exists before after,
          ranges = (before ++ r :: after)%list /\
          (JS.le (min r) amount /\ JS.le amount (max r)) /\
          Forall (fun r' => ~ (JS.le (min r') amount /\ JS.le amount (max r')))
                 before)
  /\ (getMatchingRange amount ranges = None <->
        forall r, In r ranges ->
                  ~ (JS.le (min r) amount /\ JS.le amount (max r)))
  /\ (exists parsed,
        parseRangeString "13-15,14-26" = Ok parsed /\
        List.length parsed = 2%nat /\
        getMatchingRange (JS.Finite 14) parsed
          = Some (mkRange (JS.Finite 13) (JS.Finite 15))).
Proof.
  refine (conj _ (conj _ (conj _ (conj _ (conj _ _))))).
  - apply isAmountInRange_iff.
  - intros r Hin. rewrite Forall_forall in Hwf. pose proof (Hwf r Hin) as Hr.
    destruct (le_not_NaN _ _ Hr) as [Hmin Hmax].
    split; apply isAmountInRange_iff; exists r; split; trivial; split; trivial;
      now apply le_refl_iff.
  - intros lo hi eps He. unfold isAmountInRange. simpl.
    rewrite finite_below_outside, finite_above_outside by exact He.
    now split.
  - intro r. apply getMatchingRange_first.
  - apply getMatchingRange_none.
  - eexists. split; [vm_compute; reflexivity|]. split; reflexivity.
Qed.

(** C3, witness: the ranges of "13-15,14-26" and the amount 14. *)
Lemma C3_range_matching_witness :
  let ranges := [mkRange (JS.Finite 13) (JS.Finite 15);
                 mkRange (JS.Finite 14) (JS.Finite 26)] in
  Forall (fun r => JS.le (min r) (max r)) ranges /\
  (isAmountInRange (JS.Finite 14) ranges = true <->
   exists r, In r ranges /\ JS.le (min r) (JS.Finite 14) /\
             JS.le (JS.Finite 14) (max r)) /\
  isAmountInRange (JS.Finite 13) ranges = true /\
  isAmountInRange (JS.Finite 15) ranges = true.
Proof.
  intro ranges.
  assert (Hwf : Forall (fun r => JS.le (min r) (max r)) ranges)
    by (repeat constructor; cbn; discriminate).
  split; [exact Hwf|].
  split; [exact (proj1 (C3_range_matching (JS.Finite 14) ranges Hwf))|].
  exact (proj1 (proj2 (C3_range_matching (JS.Finite 14) ranges Hwf))
           (mkRange (JS.Finite 13) (JS.Finite 15)) (or_introl eq_refl)).
Defined.

(** C10. [isAmountInRange] answers true exactly when [getMatchingRange]
    returns a range, and the range returned is one of the ranges and contains
    the amount, both bounds included. *)
Theorem C10_matches_iff_first_match (amount : JS.number) (ranges : list Range) :
  match getMatchingRange amount ranges with
  | Some r =>
      isAmountInRange amount ranges = true /\
      In r ranges /\ JS.le (min r) amount /\ JS.le amount (max r)
  | None => isAmountInRange amount ranges = false
  end.
Proof.
  unfold getMatchingRange.
  destruct (find (inRange amount) ranges) as [r|] eqn:E.
  - apply find_some in E as [Hin Hr]. split.
    + apply isAmountInRange_iff. exists r. split; trivial.
      now apply inRange_inside.
    + split; trivial. now apply inRange_inside.
  - unfold isAmountInRange.
    destruct (existsb (inRange amount) ranges) eqn:X; trivial.
    apply existsb_exists in X as (r & Hin & Hr).
    pose proof (find_none _ _ E r Hin). congruence.
Qed.

End RangeMatcher.

(** ** Range parsing *)

Lemma mapResult_ok {E A B} (f : A -> Result E B) xs ys :
  mapResult f xs = Ok ys -> Forall2 (fun x y => f x = Ok y) xs ys.
Proof.
  revert ys. induction xs as [|x rest IH]; simpl; intros ys H.
  - injection H as <-. constructor.
  - destruct (f x) as [y|e] eqn:Fx; [|discriminate].
    destruct (mapResult f rest) as [ys'|e]; [|discriminate].
    injection H as <-. constructor; auto.
Qed.

Lemma mapResult_throw {E A B} (f : A -> Result E B) xs e :
  mapResult f xs = Throw e ->
  exists before x after,
    xs = (before ++ x :: after)%list /\
    Forall (fun p => exists y, f p = Ok y) before /\
    f x = Throw e.
Proof.
  induction xs as [|x rest IH]; simpl; intro H; [discriminate|].
  destruct (f x) as [y|e'] eqn:Fx.
  - destruct (mapResult f rest) as [ys'|e'']; [discriminate|].
    injection H as ->. destruct (IH eq_refl) as (b & z & a & -> & Hb & Hz).
    exists (x :: b), z, a. repeat split; trivial. constructor; eauto.
  - injection H as ->. exists [], x, rest. repeat split; trivial.
Qed.

(** [parseRangeString] of rangeParser.ts: every range it returns has
    [min <= max]. *)
Lemma parseRangeString_bounds rangeStr parsed :
  RangeParser.parseRangeString rangeStr = Ok parsed ->
  Forall (fun r => JS.le (min r) (max r)) parsed.
Proof.
  unfold RangeParser.parseRangeString. intro H. apply mapResult_ok in H.
  induction H as [|seg r segs rs Hseg _ IH]; constructor; trivial.
  unfold RangeParser.parseSegment in Hseg.
  destruct (segmentBounds seg) as [lo hi].
  destruct (JS.isNaN lo || JS.isNaN hi) eqn:En; [discriminate|].
  apply orb_false_iff in En as [Hlo Hhi].
  destruct (JS.gtb lo hi) eqn:Eg; [discriminate|].
  injection Hseg as <-. simpl. now apply not_gtb_le.
Qed.

(** [parseRanges] of env.ts fails exactly when some segment has a bound that
    is not a number, and then with the format error. *)
Lemma parseRanges_format_error rangeStr :
  (exists seg, In seg (JS.split "," rangeStr) /\ nonNumeric seg = true) <->
  (exists e, Env.parseRanges rangeStr = Throw e).
Proof.
  unfold Env.parseRanges. split.
  - intros (seg & Hin & Hn).
    destruct (mapResult Env.parseSegment (JS.split "," rangeStr)) as [rs|e] eqn:E;
      [|eauto].
    exfalso. apply mapResult_ok in E.
    induction E as [|x r xs rs Hx _ IH]; [contradiction|].
    destruct Hin as [->|Hin]; auto.
    unfold Env.parseSegment, nonNumeric in *.
    destruct (segmentBounds seg) as [lo hi]. simpl in Hn.
    rewrite Hn in Hx. discriminate.
  - intros (e & H). apply mapResult_throw in H as (b & x & a & E & _ & Hx).
    exists x. split; [rewrite E; apply in_elt|].
    unfold Env.parseSegment, nonNumeric in *.
    destruct (segmentBounds x) as [lo hi]. simpl.
    destruct (JS.isNaN lo || JS.isNaN hi); [reflexivity|discriminate].
Qed.

Lemma parseRanges_only_format_error rangeStr e :
  Env.parseRanges rangeStr = Throw e ->
  exists seg, e = InvalidRangeFormat seg /\ nonNumeric seg = true.
Proof.
  unfold Env.parseRanges. intro H.
  apply mapResult_throw in H as (b & x & a & E & _ & Hx).
  exists x. unfold Env.parseSegment, nonNumeric in *.
  destruct (segmentBounds x) as [lo hi]. simpl.
  destruct (JS.isNaN lo || JS.isNaN hi); [|discriminate].
  injection Hx as <-. split; reflexivity.
Qed.

(** C7. The range string "15-13" has numeric bounds with [min > max].
    [parseRanges] of env.ts, which [loadConfig] calls, returns the range
    [{min: 15, max: 13}] instead of failing, whereas [parseRangeString] of
    rangeParser.ts rejects the same string with the bounds error. *)
Theorem C7_parseRanges_accepts_inverted_bounds :
  Env.parseRanges "15-13" = Ok [mkRange (JS.Finite 15) (JS.Finite 13)]
  /\ JS.gtb (JS.Finite 15) (JS.Finite 13) = true
  /\ ~ JS.le (JS.Finite 15) (JS.Finite 13)
  /\ RangeParser.parseRangeString "15-13"
     = Throw (InvalidRangeBounds (JS.Finite 15) (JS.Finite 13)).
Proof.
  split; [vm_compute; reflexivity|].
  split; [vm_compute; reflexivity|].
  split; [|vm_compute; reflexivity].
  simpl. apply Qlt_not_le. reflexivity.
Qed.

(** ** TransactionAnalyzer *)

Lemma Qltb_asym (x y : Q) : Qltb x y = true -> Qltb y x = false.
Proof.
  intro H. apply Qltb_lt in H. apply Qltb_ge. now apply Qlt_le_weak.
Qed.

Lemma filter_all_false {A} (f : A -> bool) (l : list A) :
  (forall x, f x = false) -> filter f l = [].
Proof.
  intro H. induction l as [|x l IH]; simpl; [reflexivity|].
  now rewrite H.
Qed.

Lemma analyzeBalances_from (done remaining : list string) (pre post : list Z) :
  analyzeBalances remaining (List.length done) pre post =
  (map (fun i => mkTransfer (nth i (done ++ remaining)%list "") "multiple"
                   (decrease pre post i))
       (filter (fun i => Qltb 0 (decrease pre post i))
               (seq (List.length done) (List.length remaining))),
   map (fun i => mkTransfer "multiple" (nth i (done ++ remaining)%list "")
                   (Qabs (decrease pre post i)))
       (filter (fun i => Qltb (decrease pre post i) 0)
               (seq (List.length done) (List.length remaining)))).
Proof.
  revert done. induction remaining as [|a rest IH]; intro done; simpl.
  - reflexivity.
  - specialize (IH (done ++ [a])%list).
    rewrite length_app, Nat.add_1_r in IH. simpl in IH. rewrite IH.
    rewrite <- app_assoc. simpl.
    fold (decrease pre post (List.length done)).
    assert (Hn : nth (List.length done) (done ++ a :: rest)%list "" = a)
      by (rewrite app_nth2, Nat.sub_diag by lia; reflexivity).
    destruct (Qltb 0 (decrease pre post (List.length done))) eqn:Epos.
    + rewrite (Qltb_asym _ _ Epos). simpl. now rewrite Hn.
    + destruct (Qltb (decrease pre post (List.length done)) 0) eqn:Eneg;
        simpl; now rewrite ?Hn.
Qed.

Lemma analyzeBalances_spec (addresses : list string) (pre post : list Z) :
  analyzeBalances addresses 0 pre post =
  (outgoingOf addresses pre post, incomingOf addresses pre post).
Proof. exact (analyzeBalances_from [] addresses pre post). Qed.

Section TxParserProperties.
Context {World : Type} (host : Host World).

(** C6, as the code has it.  The analyzer never throws.  It returns none when
    the node throws, when the node has no such transaction, and when an
    account key cannot be rendered in base 58.  Otherwise it returns an
    analysis, also for a transaction without metadata, whose balances then
    all count as zero: the account keys are the addresses in order, and for
    each index with [delta = (pre - post) / LAMPORTS_PER_SOL] (absent entries
    being zero) there is one outgoing transfer from that address when
    [delta > 0] and one incoming transfer to it, of amount [|delta|], when
    [delta < 0]; without metadata both lists are empty. *)
Theorem C6_analyzer_result (connection : Connection) (sig : string) (w : World) :
  match getParsedTransaction host connection sig w with
  | (Throw _, w') => fetchAndParseTransaction host connection sig w = (None, w')
  | (Ok None, w') => fetchAndParseTransaction host connection sig w = (None, w')
  | (Ok (Some tx), w') =>
      match mapResult pubkeyToBase58 (accountKeys tx) with
      | Throw _ => fetchAndParseTransaction host connection sig w = (None, w')
      | Ok addresses =>
          fetchAndParseTransaction host connection sig w =
            (Some (mkAnalysis sig (truthyTime (blockTime tx))
                     (outgoingOf addresses (preOf tx) (postOf tx))
                     (incomingOf addresses (preOf tx) (postOf tx))
                     addresses), w')
          /\ match meta tx with
             | None =>
                 outgoingOf addresses (preOf tx) (postOf tx) = [] /\
                 incomingOf addresses (preOf tx) (postOf tx) = []
             | Some _ => True
             end
      end
  end.
Proof.
  unfold fetchAndParseTransaction, tryCatch, bind.
  destruct (getParsedTransaction host connection sig w) as [[[tx|]|e] w'];
    try reflexivity.
  unfold liftResult.
  destruct (mapResult pubkeyToBase58 (accountKeys tx)) as [addresses|e];
    try reflexivity.
  fold (preOf tx). fold (postOf tx).
  rewrite analyzeBalances_spec. split; [reflexivity|].
  unfold preOf, postOf, outgoingOf, incomingOf.
  destruct (meta tx); [exact I|].
  assert (Hz : forall i, decrease [] [] i = sol 0)
    by (intro i; unfold decrease, balanceAt; now destruct i).
  split; rewrite filter_all_false; trivial; intro i; now rewrite Hz.
Qed.

End TxParserProperties.

(** C6, counterexample.  A transaction that the node returns without
    metadata is not answered with none: the analyzer returns an analysis with
    the two account keys and no transfers. *)
Lemma C6_no_metadata_is_analysed :
  let tx := mkTx None [EntryPubkeyObject "A"; EntryPubkeyObject "B"] None in
  let host := tableHost (fun _ => true) (fun _ => Ok []) (fun _ => Ok (Some tx)) in
  meta tx = None /\
  fetchAndParseTransaction host (mkConnection "https://rpc" (Some "confirmed"))
    "sig" tt
  = (Some (mkAnalysis "sig" None [] [] ["A"; "B"]), tt).
Proof. split; reflexivity. Qed.

(** ** ScrutinyValidator *)

Lemma findInflow_not_found (remaining all : list string) (i : nat)
    (recipient : string) (pre post : list Z) :
  fst (findInflow remaining i all recipient pre post) = false <->
  forall k, ~ (nth_error remaining k = Some recipient /\
               (0 < increase pre post (i + k))%Q).
Proof.
  revert i. induction remaining as [|a rest IH]; intro i; simpl.
  - split; trivial. intros _ k [H _]. now destruct k.
  - fold (increase pre post i).
    destruct (String.eqb a recipient) eqn:Ea;
      [destruct (Qltb 0 (increase pre post i)) eqn:Ed|].
    + simpl. split; [discriminate|]. intro H. exfalso. apply (H 0%nat).
      rewrite Nat.add_0_r. apply String.eqb_eq in Ea. subst.
      split; trivial. now apply Qltb_lt.
    + rewrite IH. split; intros H k.
      * destruct k as [|k].
        -- rewrite Nat.add_0_r. intros [_ Hp]. apply Qltb_lt in Hp. congruence.
        -- rewrite Nat.add_succ_r. apply (H k).
      * specialize (H (S k)). now rewrite Nat.add_succ_r in H.
    + rewrite IH. split; intros H k.
      * destruct k as [|k].
        -- simpl. intros [[= ->] _]. rewrite String.eqb_refl in Ea. discriminate.
        -- rewrite Nat.add_succ_r. apply (H k).
      * specialize (H (S k)). now rewrite Nat.add_succ_r in H.
Qed.

Lemma findInflow_none_iff (addresses : list string) (recipient : string)
    (pre post : list Z) :
  fst (findInflow addresses 0 addresses recipient pre post) = false <->
  forall i, ~ positiveInflowAt addresses recipient pre post i.
Proof. apply findInflow_not_found. Qed.

Lemma findInflow_found (remaining all : list string) (i : nat)
    (recipient : string) (pre post : list Z) :
  fst (findInflow remaining i all recipient pre post) = true <->
  exists k, nth_error remaining k = Some recipient /\
            (0 < increase pre post (i + k))%Q.
Proof.
  destruct (fst (findInflow remaining i all recipient pre post)) eqn:E.
  - split; trivial. intros _.
    revert i E. induction remaining as [|a rest IH]; intros i E; simpl in E.
    + discriminate.
    + fold (increase pre post i) in E.
      destruct (String.eqb a recipient) eqn:Ea;
        [destruct (Qltb 0 (increase pre post i)) eqn:Ed|].
      * exists 0%nat. rewrite Nat.add_0_r. apply String.eqb_eq in Ea. subst.
        split; trivial. now apply Qltb_lt.
      * destruct (IH _ E) as (k & Hk & Hp). exists (S k).
        rewrite Nat.add_succ_r. now split.
      * destruct (IH _ E) as (k & Hk & Hp). exists (S k).
        rewrite Nat.add_succ_r. now split.
  - split; [discriminate|]. intros (k & Hk).
    exfalso. exact (proj1 (findInflow_not_found _ _ _ _ _ _) E k Hk).
Qed.

Lemma findInflow_some_iff (addresses : list string) (recipient : string)
    (pre post : list Z) :
  fst (findInflow addresses 0 addresses recipient pre post) = true <->
  exists i, positiveInflowAt addresses recipient pre post i.
Proof. apply findInflow_found. Qed.

(** The source is sought for the first index at which the recipient has a
    positive inflow. *)
Lemma findInflow_first (remaining all : list string) (i k : nat)
    (recipient : string) (pre post : list Z) :
  nth_error remaining k = Some recipient ->
  (0 < increase pre post (i + k))%Q ->
  (forall k', (k' < k)%nat ->
     ~ (nth_error remaining k' = Some recipient /\
        (0 < increase pre post (i + k'))%Q)) ->
  findInflow remaining i all recipient pre post =
  (true, findInflowSource all 0 (i + k) pre post (increaseDouble pre post (i + k))).
Proof.
  revert i k. induction remaining as [|a rest IH]; intros i k Hk Hp Hfirst.
  - now destruct k.
  - simpl. fold (increase pre post i). fold (increaseDouble pre post i).
    destruct k as [|k].
    + simpl in Hk. injection Hk as ->. rewrite String.eqb_refl.
      rewrite Nat.add_0_r in *. apply Qltb_lt in Hp. now rewrite Hp.
    + simpl in Hk. rewrite Nat.add_succ_r in *.
      assert (Hnot : String.eqb a recipient && Qltb 0 (increase pre post i) = false).
      { destruct (String.eqb a recipient) eqn:Ea; trivial. simpl.
        destruct (Qltb 0 (increase pre post i)) eqn:Ed; trivial.
        exfalso. apply (Hfirst 0%nat); [lia|]. rewrite Nat.add_0_r.
        apply String.eqb_eq in Ea. subst. split; trivial. now apply Qltb_lt. }
      assert (Hrest : findInflow rest (S i) all recipient pre post =
                (true, findInflowSource all 0 (S (i + k)) pre post
                         (increaseDouble pre post (S (i + k))))).
      { apply (IH (S i) k); trivial. intros k' Hlt.
        specialize (Hfirst (S k')). rewrite Nat.add_succ_r in Hfirst.
        apply Hfirst. lia. }
      destruct (String.eqb a recipient); simpl in Hnot;
        [rewrite Hnot|]; exact Hrest.
Qed.

Section ScrutinyProperties.
Context {World : Type} (host : Host World) (connection : Connection).
Variables recipient cexAddress cexLabel : string.

Local Abbreviation check w :=
  (performScrutinyCheck host connection recipient cexAddress cexLabel w).

Local Ltac run_check :=
  unfold performScrutinyCheck, tryCatch, bind, ret, raise;
  repeat match goal with
         | H : validPublicKey _ _ = _ |- _ => rewrite H; clear H
         | H : getSignaturesForAddress _ _ _ _ _ = _ |- _ => rewrite H; clear H
         | H : getParsedTransaction _ _ _ _ = _ |- _ => rewrite H; clear H
         | H : meta _ = _ |- _ => rewrite H; clear H
         end.

(** A failing step ends the check in the world the failure left, with the
    verdict NONE and an explanation that starts with a fixed text. *)
Lemma scrutiny_failure (w w' : World) :
  ScrutinyStepFails host connection recipient w w' ->
  exists text,
    check w = (mkScrutiny false NONE None None text, w') /\ text <> "".
Proof.
  intro F. inversion F; subst; run_check; eexists; (split; [reflexivity|]);
    try discriminate; destruct e; discriminate.
Qed.

Lemma scrutiny_no_history (w w1 : World) :
  validPublicKey host recipient = true ->
  getSignaturesForAddress host connection recipient 1 w = (Ok [], w1) ->
  check w =
  (mkScrutiny true FIRST_TIME_ACTIVITY None None
     "No previous transaction history found for recipient", w1).
Proof. intros Hv Hs. now run_check. Qed.

(** The three verdicts on a previous transaction that has metadata. *)
Lemma scrutiny_previous (w w1 w2 : World) previousTx rest tx m :
  validPublicKey host recipient = true ->
  getSignaturesForAddress host connection recipient 1 w
    = (Ok (previousTx :: rest), w1) ->
  getParsedTransaction host connection (signature previousTx) w1
    = (Ok (Some tx), w2) ->
  meta tx = Some m ->
  let addresses := map entryAddress (accountKeys tx) in
  let found :=
    findInflow addresses 0 addresses recipient (preBalances m) (postBalances m) in
  check w =
  (if negb (fst found) then
     mkScrutiny true FIRST_TIME_ACTIVITY None (Some (signature previousTx))
       "No inflow detected in previous transaction"
   else if String.eqb (snd found) cexAddress then
     mkScrutiny true LOOP_DETECTED (Some (snd found))
       (Some (signature previousTx))
       (cexLabel ++ " → Recipient → " ++ cexLabel ++ " (Loop detected)")
   else
     mkScrutiny false NONE (Some (snd found)) (Some (signature previousTx))
       ("Previous inflow from " ++ formatAddressShort (snd found)
          ++ ", no loop detected"), w2).
Proof.
  intros Hv Hs Ht Hm addresses found. run_check.
  fold addresses. fold found. destruct found as [f s]. simpl.
  destruct f; simpl; [destruct (String.eqb s cexAddress)|]; reflexivity.
Qed.

(** C1. The verdict of a scrutiny evaluation of a recipient against the
    paying wallet.  With no prior signature: FIRST_TIME_ACTIVITY, alert.  With
    a prior transaction in which the recipient has no positive inflow:
    FIRST_TIME_ACTIVITY, alert.  With a positive inflow whose identified
    source equals the paying wallet: LOOP_DETECTED, alert.  With a positive
    inflow from another identified source, and whenever a step fails: NONE,
    no alert.  The alert is raised exactly when the condition is not NONE. *)
Theorem C1_scrutiny_verdict (w : World) :
  let r := fst (check w) in
  (forall w1,
      validPublicKey host recipient = true ->
      getSignaturesForAddress host connection recipient 1 w = (Ok [], w1) ->
      condition r = FIRST_TIME_ACTIVITY /\ alertTriggered r = true)
  /\ (forall previousTx rest w1 tx w2 m,
      validPublicKey host recipient = true ->
      getSignaturesForAddress host connection recipient 1 w
        = (Ok (previousTx :: rest), w1) ->
      getParsedTransaction host connection (signature previousTx) w1
        = (Ok (Some tx), w2) ->
      meta tx = Some m ->
      let addresses := map entryAddress (accountKeys tx) in
      let inflowSource :=
        snd (findInflow addresses 0 addresses recipient
               (preBalances m) (postBalances m)) in
      ((forall i, ~ positiveInflowAt addresses recipient
                      (preBalances m) (postBalances m) i) ->
         condition r = FIRST_TIME_ACTIVITY /\ alertTriggered r = true)
      /\ ((exists i, positiveInflowAt addresses recipient
                       (preBalances m) (postBalances m) i) ->
          inflowSource = cexAddress ->
          condition r = LOOP_DETECTED /\ alertTriggered r = true /\
          previousInflowSource r = Some cexAddress)
      /\ ((exists i, positiveInflowAt addresses recipient
                       (preBalances m) (postBalances m) i) ->
          inflowSource <> cexAddress ->
          condition r = NONE /\ alertTriggered r = false))
  /\ (forall w',
      ScrutinyStepFails host connection recipient w w' ->
      condition r = NONE /\ alertTriggered r = false)
  /\ (alertTriggered r = true <-> condition r <> NONE).
Proof.
  intro r. subst r. refine (conj _ (conj _ (conj _ _))).
  - intros w1 Hv Hs. rewrite (scrutiny_no_history _ _ Hv Hs). now split.
  - intros previousTx rest w1 tx w2 m Hv Hs Ht Hm addresses inflowSource.
    rewrite (scrutiny_previous _ _ _ _ _ _ _ Hv Hs Ht Hm).
    fold addresses. subst inflowSource. cbv zeta.
    set (found := findInflow addresses 0 addresses recipient
                    (preBalances m) (postBalances m)).
    refine (conj _ (conj _ _)).
    + intro Hno. apply findInflow_none_iff in Hno. fold found in Hno.
      rewrite Hno. now split.
    + intros Hin Heq. apply findInflow_some_iff in Hin. fold found in Hin.
      rewrite Hin, Heq, String.eqb_refl. simpl. repeat split.
    + intros Hin Hne. apply findInflow_some_iff in Hin. fold found in Hin.
      apply String.eqb_neq in Hne. rewrite Hin, Hne. now split.
  - intros w' F. destruct (scrutiny_failure _ _ F) as (text & -> & _). now split.
  - unfold performScrutinyCheck, tryCatch, bind, ret, raise.
    destruct (validPublicKey host recipient); [|simpl; split; [discriminate|congruence]].
    destruct (getSignaturesForAddress host connection recipient 1 w)
      as [[[|previousTx rest]|e] w1];
      try (simpl; split; [discriminate|congruence]);
      try (simpl; split; [reflexivity|discriminate]);
      try (simpl; split; [reflexivity|congruence]).
    destruct (getParsedTransaction host connection (signature previousTx) w1)
      as [[[tx|]|e] w2];
      try (simpl; split; [discriminate|congruence]).
    destruct (meta tx) as [m|];
      try (simpl; split; [discriminate|congruence]).
    destruct (findInflow _ _ _ _ _ _) as [f s].
    destruct f; simpl; [destruct (String.eqb s cexAddress)|]; simpl;
      (split; [discriminate|congruence]) || (split; [reflexivity|discriminate]).
Qed.

(** C4. Whenever a step of the scrutiny check fails (the recipient is not a
    public key, the signature lookup throws, the fetch of the previous
    transaction throws, the previous transaction is missing or has no
    metadata), the check returns, in the world the failure left, a result
    with condition NONE, no alert, no source, and an explanation that is not
    empty. *)
Theorem C4_scrutiny_degrades (w w' : World) :
  ScrutinyStepFails host connection recipient w w' ->
  exists r,
    check w = (r, w') /\
    condition r = NONE /\
    alertTriggered r = false /\
    previousInflowSource r = None /\
    explanation r <> "".
Proof.
  intro F. destruct (scrutiny_failure _ _ F) as (text & E & Ht).
  eexists. split; [exact E|]. simpl. auto.
Qed.

End ScrutinyProperties.

Lemma findInflowSource_spec (remaining : list string) (j i : nat)
    (pre post : list Z) (diff : Double.double) :
  (exists k a,
      nth_error remaining k = Some a /\
      exactSourceAt pre post i diff (j + k) /\
      (forall k', (k' < k)%nat -> ~ exactSourceAt pre post i diff (j + k')) /\
      findInflowSource remaining j i pre post diff = a)
  \/ ((forall k, (k < List.length remaining)%nat ->
                 ~ exactSourceAt pre post i diff (j + k)) /\
      findInflowSource remaining j i pre post diff = "UNKNOWN").
Proof.
  revert j. induction remaining as [|a rest IH]; intro j; simpl.
  - right. split; trivial. intros k Hk. lia.
  - fold (decreaseDouble pre post j).
    assert (Hstep :
      ~ exactSourceAt pre post i diff j ->
      (exists k a0,
          nth_error (a :: rest) k = Some a0 /\
          exactSourceAt pre post i diff (j + k) /\
          (forall k', (k' < k)%nat -> ~ exactSourceAt pre post i diff (j + k')) /\
          findInflowSource rest (S j) i pre post diff = a0)
      \/ ((forall k, (k < S (List.length rest))%nat ->
                     ~ exactSourceAt pre post i diff (j + k)) /\
          findInflowSource rest (S j) i pre post diff = "UNKNOWN")).
    { intro Hj. destruct (IH (S j)) as [(k & a0 & Hk & Hex & Hfirst & Hr)|[Hno Hr]].
      - left. exists (S k), a0. rewrite Nat.add_succ_r.
        split; [exact Hk|]. split; [exact Hex|]. split; [|exact Hr].
        intros k' Hlt. destruct k' as [|k'].
        + now rewrite Nat.add_0_r.
        + rewrite Nat.add_succ_r. apply (Hfirst k'). lia.
      - right. split; trivial. intros k Hk. destruct k as [|k].
        + now rewrite Nat.add_0_r.
        + rewrite Nat.add_succ_r. apply (Hno k). lia. }
    destruct (Nat.eqb j i) eqn:Eji.
    + apply Nat.eqb_eq in Eji. apply Hstep. intros [Hne _]. contradiction.
    + destruct (Double.ltb Double.zero (decreaseDouble pre post j)) eqn:Epos;
        cbn [andb].
      * destruct (Double.eqb (decreaseDouble pre post j) diff) eqn:Eeq.
        -- left. exists 0%nat, a. rewrite Nat.add_0_r.
           split; [reflexivity|]. split; [|split; [|reflexivity]].
           ++ split; [now apply Nat.eqb_neq|]. now split.
           ++ intros k' Hk'. lia.
        -- apply Hstep. intros (_ & _ & He). congruence.
      * apply Hstep. intros (_ & Hp & _). congruence.
Qed.

(** C1, witness: the paying wallet "CEX" sent exactly 1 SOL to "R" in the
    previous transaction of "R". *)
Lemma C1_scrutiny_verdict_witness :
  let m := mkMeta [5000000000; 0] [4000000000; 1000000000] in
  let tx := mkTx (Some m) [EntryPubkeyObject "CEX"; EntryPubkeyObject "R"] None in
  let host := tableHost (fun _ => true) (fun _ => Ok [mkSigInfo "prev"])
                (fun _ => Ok (Some tx)) in
  let connection := mkConnection "https://rpc" (Some "confirmed") in
  let r := fst (performScrutinyCheck host connection "R" "CEX" "OKX" tt) in
  positiveInflowAt ["CEX"; "R"] "R" (preBalances m) (postBalances m) 1 /\
  condition r = LOOP_DETECTED /\ alertTriggered r = true /\
  previousInflowSource r = Some "CEX".
Proof.
  intros m tx host connection r.
  assert (P : positiveInflowAt ["CEX"; "R"] "R" (preBalances m) (postBalances m) 1)
    by (split; reflexivity).
  split; [exact P|].
  exact (proj1 (proj2 (proj1 (proj2
           (C1_scrutiny_verdict host connection "R" "CEX" "OKX" tt))
           (mkSigInfo "prev") [] tt tx tt m eq_refl eq_refl eq_refl eq_refl))
         (ex_intro _ 1%nat P) eq_refl).
Defined.

(** C4, witness: the signature lookup is refused by the node. *)
Lemma C4_scrutiny_degrades_witness :
  let host := tableHost (fun _ => true)
                (fun _ => Throw (ErrorObject "429 Too Many Requests"))
                (fun _ => Ok None) in
  let connection := mkConnection "https://rpc" (Some "confirmed") in
  ScrutinyStepFails host connection "R" tt tt /\
  exists r,
    performScrutinyCheck host connection "R" "CEX" "OKX" tt = (r, tt) /\
    condition r = NONE /\ alertTriggered r = false /\
    previousInflowSource r = None /\ explanation r <> "".
Proof.
  intros host connection.
  assert (F : ScrutinyStepFails host connection "R" tt tt)
    by (eapply FailLookup; reflexivity).
  split; [exact F|].
  exact (C4_scrutiny_degrades host connection "R" "CEX" "OKX" tt tt F).
Defined.

(** C5. In the previous transaction "CEX" pays 1 SOL to "R" and the fee of
    5000 lamports: its balance falls by 1.000005 SOL while that of "R" rises
    by 1 SOL.  The heuristic of the coordinator run in reverse, with its
    tolerance of 1/10,000, names "CEX" as the source.  The scrutiny check
    compares the two amounts for equality, finds no source, and answers NONE
    for the paying wallet "CEX" with the source "UNKNOWN". *)
Theorem C5_exact_match_misses_fee_payer :
  let addresses := ["CEX"; "R"] in
  let m := mkMeta [2000005000; 0] [1000000000; 1000000000] in
  let tx := mkTx (Some m) [EntryPubkeyObject "CEX"; EntryPubkeyObject "R"] None in
  let host := tableHost (fun _ => true) (fun _ => Ok [mkSigInfo "prev"])
                (fun _ => Ok (Some tx)) in
  let connection := mkConnection "https://rpc" (Some "confirmed") in
  let r := fst (performScrutinyCheck host connection "R" "CEX" "OKX" tt) in
  positiveInflowAt addresses "R" (preBalances m) (postBalances m) 1
  /\ (Qabs (decrease (preBalances m) (postBalances m) 0
            - increase (preBalances m) (postBalances m) 1) < TOLERANCE)%Q
  /\ reverseHeuristicSource addresses (preBalances m) (postBalances m) 1
       (increase (preBalances m) (postBalances m) 1) = Some "CEX"
  /\ findInflow addresses 0 addresses "R" (preBalances m) (postBalances m)
     = (true, "UNKNOWN")
  /\ condition r = NONE /\ alertTriggered r = false
  /\ previousInflowSource r = Some "UNKNOWN".
Proof.
  cbv zeta. repeat split; vm_compute; reflexivity.
Qed.

(** ** DetectionCoordinator *)

(** The scan returns the address at the first index, other than the
    sender's, whose increase is within the tolerance. *)
Lemma findRecipient_from (remaining : list string) (i idx : nat)
    (pre post : list Z) (amount : Double.double) :
  (exists k a,
      nth_error remaining k = Some a /\
      (i + k)%nat <> idx /\ withinTolerance pre post amount (i + k) /\
      (forall k', (k' < k)%nat -> (i + k')%nat <> idx ->
                  ~ withinTolerance pre post amount (i + k')) /\
      findRecipient remaining i pre post idx amount = Some a)
  \/ ((forall k, (k < List.length remaining)%nat -> (i + k)%nat <> idx ->
                 ~ withinTolerance pre post amount (i + k)) /\
      findRecipient remaining i pre post idx amount = None).
Proof.
  revert i. induction remaining as [|a rest IH]; intro i;
    cbn [findRecipient List.length].
  - right. split; trivial. intros k Hk. lia.
  - fold (increaseDouble pre post i).
    assert (Hstep :
      (i <> idx -> ~ withinTolerance pre post amount i) ->
      (exists k a0,
          nth_error (a :: rest) k = Some a0 /\
          (i + k)%nat <> idx /\ withinTolerance pre post amount (i + k) /\
          (forall k', (k' < k)%nat -> (i + k')%nat <> idx ->
                      ~ withinTolerance pre post amount (i + k')) /\
          findRecipient rest (S i) pre post idx amount = Some a0)
      \/ ((forall k, (k < S (List.length rest))%nat -> (i + k)%nat <> idx ->
                     ~ withinTolerance pre post amount (i + k)) /\
          findRecipient rest (S i) pre post idx amount = None)).
    { intro Hi.
      destruct (IH (S i)) as [(k & a0 & Hk & Hne & Hin & Hfirst & Hr)|[Hno Hr]].
      - left. exists (S k), a0. rewrite Nat.add_succ_r.
        split; [exact Hk|]. split; [exact Hne|]. split; [exact Hin|].
        split; [|exact Hr].
        intros k' Hlt. destruct k' as [|k'].
        + now rewrite Nat.add_0_r.
        + rewrite Nat.add_succ_r. apply (Hfirst k'). lia.
      - right. split; trivial. intros k Hk. destruct k as [|k].
        + now rewrite Nat.add_0_r.
        + rewrite Nat.add_succ_r. apply (Hno k). lia. }
    destruct (Nat.eqb i idx) eqn:Ei.
    + apply Nat.eqb_eq in Ei. apply Hstep. intro. contradiction.
    + destruct (Double.ltb
                  (Double.abs (Double.sub (increaseDouble pre post i) amount))
                  TOLERANCE_DOUBLE) eqn:Et.
      * left. exists 0%nat, a. rewrite Nat.add_0_r.
        split; [reflexivity|]. split; [now apply Nat.eqb_neq|].
        split; [exact Et|]. split; [|reflexivity].
        intros k' Hk'. lia.
      * apply Hstep. intros _ Hw. unfold withinTolerance in Hw. congruence.
Qed.

Lemma findRecipient_some (addresses : list string) (idx : nat)
    (pre post : list Z) (amount : Double.double) (a : string) :
  findRecipient addresses 0 pre post idx amount = Some a <->
  exists i,
    nth_error addresses i = Some a /\ i <> idx /\
    withinTolerance pre post amount i /\
    forall j, (j < i)%nat -> j <> idx -> ~ withinTolerance pre post amount j.
Proof.
  destruct (findRecipient_from addresses 0 idx pre post amount)
    as [(k & a0 & Hk & Hne & Hin & Hfirst & Hr)|[Hno Hr]]; simpl in *; rewrite Hr.
  - split.
    + intros [= <-]. exists k. auto.
    + intros (i & Hi & Hnei & Hini & Hfirsti). f_equal.
      assert (i = k) as ->.
      { destruct (Nat.lt_trichotomy i k) as [L|[E|L]]; trivial; exfalso.
        - exact (Hfirst i L Hnei Hini).
        - exact (Hfirsti k L Hne Hin). }
      congruence.
  - split; [discriminate|]. intros (i & Hi & Hnei & Hini & _). exfalso.
    apply (Hno i); trivial. apply nth_error_Some. congruence.
Qed.

Lemma findRecipient_none (addresses : list string) (idx : nat)
    (pre post : list Z) (amount : Double.double) :
  findRecipient addresses 0 pre post idx amount = None <->
  forall i, (i < List.length addresses)%nat -> i <> idx ->
            ~ withinTolerance pre post amount i.
Proof.
  destruct (findRecipient_from addresses 0 idx pre post amount)
    as [(k & a0 & Hk & Hne & Hin & Hfirst & Hr)|[Hno Hr]]; simpl in *; rewrite Hr.
  - split; [discriminate|]. intro H. exfalso. apply (H k); trivial.
    apply nth_error_Some. congruence.
  - split; trivial.
Qed.

Lemma Subsequence_nil {A} (ys : list A) : Subsequence [] ys.
Proof. induction ys; constructor; trivial. Qed.

Lemma Subsequence_In {A} (xs ys : list A) :
  Subsequence xs ys -> forall x, In x xs -> In x ys.
Proof.
  induction 1; intros z Hz; trivial.
  - right. auto.
  - destruct Hz as [->|Hz]; [now left | right; auto].
Qed.

Lemma Subsequence_map {A B} (f : A -> B) (xs ys : list A) :
  Subsequence xs ys -> Subsequence (map f xs) (map f ys).
Proof.
  induction 1; cbn;
    [apply SubNil | now apply SubSkip | now apply SubKeep].
Qed.

Lemma Subsequence_NoDup {A} (xs ys : list A) :
  Subsequence xs ys -> NoDup ys -> NoDup xs.
Proof.
  induction 1; intro N; trivial.
  - inversion N; auto.
  - inversion N; subst. constructor; auto.
    intro Hin. eauto using Subsequence_In.
Qed.

Section CoordinatorProperties.
Context {World : Type} (host : Host World) (config : Env.Config).

Local Abbreviation connection2 := (mkConnection (Env.rpcEndpoint config) None).

(** What an iteration that reaches [handleDetection] has gone through. *)
Lemma processWallet_emits sig txAnalysis cexWallet w ev w' :
  processWallet host config sig txAnalysis cexWallet w = (Ok (Some ev), w') ->
  exists idx w1 tx m,
    indexOf (Env.address cexWallet) (ta_accountKeys txAnalysis) = Some idx /\
    getParsedTransaction host connection2 sig w = (Ok (Some tx), w1) /\
    meta tx = Some m /\
    outgoingAmount ev = decrease (preBalances m) (postBalances m) idx /\
    (0 < outgoingAmount ev)%Q /\
    RangeParser.getMatchingRange (JS.Finite (outgoingAmount ev))
      (Env.ranges cexWallet) = Some (matchedRange ev) /\
    findRecipient (map entryAddress (accountKeys tx)) 0
      (preBalances m) (postBalances m) idx
      (decreaseDouble (preBalances m) (postBalances m) idx)
      = Some (recipientAddress ev) /\
    recipientAddress ev <> "" /\
    eventWallet ev = configWallet cexWallet /\
    ev_signature ev = sig /\
    performScrutinyCheck host (connection config) (recipientAddress ev)
      (Env.address cexWallet) (Env.label cexWallet) w1
      = (scrutinyResult ev, w').
Proof.
  unfold processWallet, bind, ret, liftTotal. intro H.
  destruct (indexOf (Env.address cexWallet) (ta_accountKeys txAnalysis))
    as [idx|]; [|discriminate].
  destruct (getParsedTransaction host connection2 sig w) as [[[tx|]|e] w1];
    try discriminate.
  destruct (meta tx) as [m|] eqn:Em; [|discriminate].
  fold (decrease (preBalances m) (postBalances m) idx) in H.
  fold (decreaseDouble (preBalances m) (postBalances m) idx) in H.
  set (amt := decrease (preBalances m) (postBalances m) idx) in *.
  set (amtD := decreaseDouble (preBalances m) (postBalances m) idx) in *.
  destruct (Qle_bool amt 0) eqn:Ele; [discriminate|].
  destruct (RangeParser.isAmountInRange (JS.Finite amt) (Env.ranges cexWallet));
    [|discriminate]. cbn [negb] in H.
  destruct (RangeParser.getMatchingRange (JS.Finite amt) (Env.ranges cexWallet))
    as [range|] eqn:Er; [|discriminate].
  destruct (findRecipient (map entryAddress (accountKeys tx)) 0 (preBalances m)
              (postBalances m) idx amtD) as [[|c rcp]|] eqn:Ef; try discriminate.
  destruct (performScrutinyCheck host (connection config) (String c rcp)
              (Env.address cexWallet) (Env.label cexWallet) w1) as [sr w2] eqn:Es.
  injection H as <- <-. exists idx, w1, tx, m. cbn.
  repeat (split; [first [reflexivity | assumption | discriminate]|]).
  split.
  - apply Qnot_le_lt. intro L. apply Qle_bool_iff in L. congruence.
  - repeat (split; [first [reflexivity | assumption | discriminate]|]).
    assumption.
Qed.

(** An iteration whose scan finds nobody, or an address that is the empty
    string, is left by [continue]. *)
Lemma processWallet_no_recipient sig txAnalysis cexWallet w idx w1 tx m :
  indexOf (Env.address cexWallet) (ta_accountKeys txAnalysis) = Some idx ->
  getParsedTransaction host connection2 sig w = (Ok (Some tx), w1) ->
  meta tx = Some m ->
  (findRecipient (map entryAddress (accountKeys tx)) 0
     (preBalances m) (postBalances m) idx
     (decreaseDouble (preBalances m) (postBalances m) idx) = None
   \/ findRecipient (map entryAddress (accountKeys tx)) 0
        (preBalances m) (postBalances m) idx
        (decreaseDouble (preBalances m) (postBalances m) idx) = Some "") ->
  processWallet host config sig txAnalysis cexWallet w = (Ok None, w1).
Proof.
  intros Hi Ht Hm Hf. unfold processWallet, bind, ret.
  rewrite Hi, Ht, Hm.
  fold (decreaseDouble (preBalances m) (postBalances m) idx).
  destruct (Qle_bool _ 0); trivial.
  destruct (negb _); trivial.
  destruct (RangeParser.getMatchingRange _ _); trivial.
  now destruct Hf as [-> | ->].
Qed.

(** An iteration with a positive outgoing amount in a range of the wallet
    and a recipient found reaches [handleDetection]. *)
Lemma processWallet_recipient sig txAnalysis cexWallet w idx w1 tx m a range :
  indexOf (Env.address cexWallet) (ta_accountKeys txAnalysis) = Some idx ->
  getParsedTransaction host connection2 sig w = (Ok (Some tx), w1) ->
  meta tx = Some m ->
  (0 < decrease (preBalances m) (postBalances m) idx)%Q ->
  RangeParser.getMatchingRange
    (JS.Finite (decrease (preBalances m) (postBalances m) idx))
    (Env.ranges cexWallet) = Some range ->
  findRecipient (map entryAddress (accountKeys tx)) 0
    (preBalances m) (postBalances m) idx
    (decreaseDouble (preBalances m) (postBalances m) idx) = Some a ->
  a <> "" ->
  exists ev w',
    processWallet host config sig txAnalysis cexWallet w = (Ok (Some ev), w') /\
    recipientAddress ev = a /\ matchedRange ev = range /\
    outgoingAmount ev = decrease (preBalances m) (postBalances m) idx.
Proof.
  intros Hi Ht Hm Hpos Hr Hf Ha. unfold processWallet, bind, ret, liftTotal.
  rewrite Hi, Ht, Hm.
  fold (decrease (preBalances m) (postBalances m) idx).
  fold (decreaseDouble (preBalances m) (postBalances m) idx).
  set (amt := decrease (preBalances m) (postBalances m) idx) in *.
  destruct (Qle_bool amt 0) eqn:Ele.
  { apply Qle_bool_iff in Ele. exfalso. exact (Qlt_not_le _ _ Hpos Ele). }
  assert (Hin : RangeParser.isAmountInRange (JS.Finite amt) (Env.ranges cexWallet)
                = true).
  { apply isAmountInRange_iff.
    apply getMatchingRange_first in Hr as (before & after & E & Hr & _).
    exists range. split; [|exact Hr]. rewrite E. apply in_elt. }
  rewrite Hin. cbn [negb]. rewrite Hr, Hf.
  destruct a as [|c rcp]; [contradiction|].
  destruct (performScrutinyCheck host (connection config) (String c rcp)
              (Env.address cexWallet) (Env.label cexWallet) w1) as [sr w2].
  eexists. eexists. split; [reflexivity|]. cbn. auto.
Qed.

(** C2. In the iteration for a wallet found at index [idx] of the account
    list, with the transaction fetched, the recipient the scan selects is the
    address at the first index, other than [idx], that passes the tolerance
    test [Math.abs(diff - outgoingAmount) < 0.0001]; the test is the one the
    program evaluates, in double arithmetic on the two rounded quotients.
    The scan selects nobody exactly when no such index exists.  When it
    selects nobody, or an empty address, the iteration emits no event; an
    event that is emitted carries the selected recipient; and when the
    outgoing amount is positive and in a range of the wallet, a non-empty
    selected address is the recipient of the event that the iteration
    emits. *)
Theorem C2_recipient_selection sig txAnalysis cexWallet w idx w1 tx m :
  indexOf (Env.address cexWallet) (ta_accountKeys txAnalysis) = Some idx ->
  getParsedTransaction host connection2 sig w = (Ok (Some tx), w1) ->
  meta tx = Some m ->
  let addresses := map entryAddress (accountKeys tx) in
  let pre := preBalances m in
  let post := postBalances m in
  let amount := decreaseDouble pre post idx in
  let selected := findRecipient addresses 0 pre post idx amount in
  (forall a,
      selected = Some a <->
      exists i,
        nth_error addresses i = Some a /\ i <> idx /\
        withinTolerance pre post amount i /\
        forall j, (j < i)%nat -> j <> idx -> ~ withinTolerance pre post amount j)
  /\ (selected = None <->
      forall i, (i < List.length addresses)%nat -> i <> idx ->
                ~ withinTolerance pre post amount i)
  /\ (selected = None \/ selected = Some "" ->
      processWallet host config sig txAnalysis cexWallet w = (Ok None, w1))
  /\ (forall ev w',
      processWallet host config sig txAnalysis cexWallet w = (Ok (Some ev), w') ->
      selected = Some (recipientAddress ev))
  /\ (forall a range,
      selected = Some a -> a <> "" ->
      (0 < decrease pre post idx)%Q ->
      RangeParser.getMatchingRange (JS.Finite (decrease pre post idx))
        (Env.ranges cexWallet) = Some range ->
      exists ev w',
        processWallet host config sig txAnalysis cexWallet w = (Ok (Some ev), w') /\
        recipientAddress ev = a /\ matchedRange ev = range /\
        outgoingAmount ev = decrease pre post idx).
Proof.
  intros Hi Ht Hm addresses pre post amount selected.
  refine (conj _ (conj _ (conj _ (conj _ _)))).
  - intro a. apply findRecipient_some.
  - apply findRecipient_none.
  - intro Hn. exact (processWallet_no_recipient _ _ _ _ _ _ _ _ Hi Ht Hm Hn).
  - intros ev w' He.
    destruct (processWallet_emits _ _ _ _ _ _ He)
      as (idx' & w1' & tx' & m' & Hi' & Ht' & Hm' & _ & _ & _ & Hf & _).
    rewrite Hi in Hi'. injection Hi' as <-.
    rewrite Ht in Ht'. injection Ht' as <- <-.
    rewrite Hm in Hm'. injection Hm' as <-.
    exact Hf.
  - intros a range Hs Ha Hpos Hr.
    exact (processWallet_recipient _ _ _ _ _ _ _ _ _ _ Hi Ht Hm Hpos Hr Hs Ha).
Qed.

(** The analysis of the first fetch lists the account keys of the fetched
    transaction, in order. *)
Lemma fetchAndParseTransaction_some c sig w analysis w' :
  fetchAndParseTransaction host c sig w = (Some analysis, w') ->
  exists tx,
    getParsedTransaction host c sig w = (Ok (Some tx), w') /\
    ta_accountKeys analysis = map entryAddress (accountKeys tx).
Proof.
  unfold fetchAndParseTransaction, tryCatch, bind, ret, liftResult. intro H.
  destruct (getParsedTransaction host c sig w) as [[[tx|]|e] w1];
    try (injection H as H _; discriminate).
  exists tx.
  destruct (mapResult pubkeyToBase58 (accountKeys tx)) as [addresses|e] eqn:Ek;
    [|injection H as H _; discriminate].
  destruct (analyzeBalances addresses 0 _ _) as [outs ins].
  injection H as <- <-. split; [reflexivity|]. cbn.
  apply mapResult_ok in Ek. clear -Ek.
  induction Ek as [|k a ks addrs Hk _ IH]; [reflexivity|].
  cbn. rewrite IH. f_equal. destruct k; try discriminate.
  now injection Hk as ->.
Qed.

(** The events of the loop: one per iteration that emits, in the order of
    the wallets, each with the facts of its iteration. *)
Lemma processWallets_events sig txAnalysis wallets w :
  let events := fst (processWallets host config sig txAnalysis wallets w) in
  Subsequence (map eventWallet events) (map configWallet wallets) /\
  Forall (fun ev =>
            ev_signature ev = sig /\
            (0 < outgoingAmount ev)%Q /\
            exists idx w1 w2 tx m,
              indexOf (cexAddress ev) (ta_accountKeys txAnalysis) = Some idx /\
              getParsedTransaction host connection2 sig w1 = (Ok (Some tx), w2) /\
              meta tx = Some m /\
              outgoingAmount ev = decrease (preBalances m) (postBalances m) idx)
         events.
Proof.
  revert w. induction wallets as [|cw rest IH]; intro w; cbn.
  - split; constructor.
  - destruct (processWallet host config sig txAnalysis cw w)
      as [[[ev|]|e] w1] eqn:Ep; cbn.
    + specialize (IH w1).
      destruct (processWallets host config sig txAnalysis rest w1) as [evs w2].
      cbn in *. destruct IH as [IHs IHf].
      destruct (processWallet_emits _ _ _ _ _ _ Ep)
        as (idx & w1' & tx & m & Hi & Ht & Hm & Ha & Hpos & _ & _ & _ & Hw & Hs & _).
      split.
      * rewrite Hw. now apply SubKeep.
      * constructor; trivial. split; trivial. split; trivial.
        exists idx, w, w1', tx, m.
        assert (cexAddress ev = Env.address cw) as ->
          by (unfold eventWallet, configWallet in Hw; congruence).
        repeat split; assumption.
    + destruct (IH w1) as [IHs IHf]. split; trivial. now apply SubSkip.
    + split; [apply Subsequence_nil | constructor].
Qed.

End CoordinatorProperties.

Section CoordinatorInvariant.
Context {World : Type} (host : Host World) (config : Env.Config).

(** C9. For every processed notification: each emitted event carries the
    signature of the notification and the label and address of a configured
    wallet; the wallets of the events, in order, are a subsequence of the
    configured wallets, so an iteration emits at most one event and, when the
    configured addresses are distinct, no two events name the same wallet;
    every emitted event has a positive outgoing amount, which is the
    decrease of its wallet's balance in the transaction fetched for it; and
    when the node answers every fetch of the signature with the same
    transaction, no event names an address whose balance decrease in that
    transaction is zero or negative. *)
Theorem C9_events_of_configured_wallets (sig : string) (logs : list string)
    (w : World) :
  let events := fst (processLogEvent host config sig logs w) in
  Forall (fun ev =>
            ev_signature ev = sig /\
            exists cw, In cw (Env.cexWallets config) /\
                       cexLabel ev = Env.label cw /\
                       cexAddress ev = Env.address cw) events
  /\ Subsequence (map eventWallet events)
                 (map configWallet (Env.cexWallets config))
  /\ (NoDup (map Env.address (Env.cexWallets config)) ->
      NoDup (map cexAddress events))
  /\ Forall (fun ev =>
               (0 < outgoingAmount ev)%Q /\
               exists analysis w0 idx w1 w2 tx m,
                 fetchAndParseTransaction host (connection config) sig w
                   = (Some analysis, w0) /\
                 indexOf (cexAddress ev) (ta_accountKeys analysis) = Some idx /\
                 getParsedTransaction host
                   (mkConnection (Env.rpcEndpoint config) None) sig w1
                   = (Ok (Some tx), w2) /\
                 meta tx = Some m /\
                 outgoingAmount ev
                   = decrease (preBalances m) (postBalances m) idx) events
  /\ (forall tx,
        (forall c w0, fst (getParsedTransaction host c sig w0) = Ok (Some tx)) ->
        forall a idx,
          indexOf a (map entryAddress (accountKeys tx)) = Some idx ->
          (decrease (preOf tx) (postOf tx) idx <= 0)%Q ->
          Forall (fun ev => cexAddress ev <> a) events).
Proof.
  unfold processLogEvent.
  destruct (fetchAndParseTransaction host (connection config) sig w)
    as [[analysis|] w0] eqn:Ef; cbn zeta;
    [|cbn [fst map];
      refine (conj _ (conj _ (conj _ (conj _ _)))); intros;
      first [apply Forall_nil | apply Subsequence_nil | apply NoDup_nil]].
  destruct (processWallets_events host config sig analysis
              (Env.cexWallets config) w0) as [Hs Hf].
  set (events := fst (processWallets host config sig analysis
                        (Env.cexWallets config) w0)) in *.
  assert (Hfacts : Forall (fun ev =>
               (0 < outgoingAmount ev)%Q /\
               exists analysis' w0' idx w1 w2 tx m,
                 (Some analysis, w0) = (Some analysis', w0') /\
                 indexOf (cexAddress ev) (ta_accountKeys analysis') = Some idx /\
                 getParsedTransaction host
                   (mkConnection (Env.rpcEndpoint config) None) sig w1
                   = (Ok (Some tx), w2) /\
                 meta tx = Some m /\
                 outgoingAmount ev
                   = decrease (preBalances m) (postBalances m) idx) events).
  { eapply Forall_impl; [|exact Hf]. cbn.
    intros ev (_ & Hpos & idx & w1 & w2 & tx & m & H). split; trivial.
    exists analysis, w0, idx, w1, w2, tx, m. split; trivial. }
  refine (conj _ (conj Hs (conj _ (conj Hfacts _)))).
  - apply Forall_forall. intros ev Hin. split.
    + rewrite Forall_forall in Hf. now apply Hf.
    + assert (Hw : In (eventWallet ev) (map configWallet (Env.cexWallets config))).
      { eapply Subsequence_In; [exact Hs|]. now apply in_map. }
      apply in_map_iff in Hw as (cw & Hcw & Hin'). exists cw.
      unfold eventWallet, configWallet in Hcw. split; trivial.
      split; congruence.
  - intro N. apply (Subsequence_map snd) in Hs.
    rewrite !map_map in Hs. cbn in Hs.
    exact (Subsequence_NoDup _ _ Hs N).
  - intros tx Hstable a idx Hidx Hle.
    destruct (fetchAndParseTransaction_some host _ _ _ _ _ Ef)
      as (tx0 & Ht0 & Hkeys).
    pose proof (Hstable (connection config) w) as S0. rewrite Ht0 in S0.
    injection S0 as ->.
    eapply Forall_impl; [|exact Hf]. cbn.
    intros ev (_ & Hpos & idx' & w1 & w2 & tx' & m & Hi' & Ht' & Hm & Ha) Heq.
    rewrite Heq in Hi'.
    pose proof (Hstable (mkConnection (Env.rpcEndpoint config) None) w1) as S1.
    rewrite Ht' in S1. injection S1 as ->.
    rewrite Hkeys, Hidx in Hi'. injection Hi' as <-.
    unfold preOf, postOf in Hle. rewrite Hm in Hle. rewrite Ha in Hpos.
    exact (Qlt_not_le _ _ Hpos Hle).
Qed.

End CoordinatorInvariant.

(** C2, witness: the wallet "CEX", second in the account list, pays 1 SOL
    and a fee of 5000 lamports; "F" does not change, "A" receives 1 SOL and
    "B", after it, receives exactly what "CEX" paid.  The scan passes over
    "F" and "CEX" and selects "A", the first within the tolerance, and the
    iteration emits the event for "A". *)
Lemma C2_recipient_selection_witness :
  let m := mkMeta [7; 2000005000; 0; 0] [7; 1000000000; 1000000000; 1000005000] in
  let keys := [EntryPubkeyObject "F"; EntryPubkeyObject "CEX";
               EntryPubkeyObject "A"; EntryPubkeyObject "B"] in
  let tx := mkTx (Some m) keys None in
  let host := tableHost (fun _ => true) (fun _ => Ok []) (fun _ => Ok (Some tx)) in
  let range := mkRange (JS.Finite (1 # 2)) (JS.Finite 2) in
  let wallet := Env.mkCEXWallet "OKX" "CEX" [range] in
  let config := Env.mkConfig "https://rpc" [wallet] in
  let analysis := mkAnalysis "sig" None [] [] ["F"; "CEX"; "A"; "B"] in
  let pre := preBalances m in
  let post := postBalances m in
  let amount := decreaseDouble pre post 1 in
  indexOf (Env.address wallet) (ta_accountKeys analysis) = Some 1%nat /\
  getParsedTransaction host (mkConnection (Env.rpcEndpoint config) None) "sig" tt
    = (Ok (Some tx), tt) /\
  meta tx = Some m /\
  withinTolerance pre post amount 3 /\
  (exists i,
     nth_error ["F"; "CEX"; "A"; "B"] i = Some "A" /\ i <> 1%nat /\
     withinTolerance pre post amount i /\
     forall j, (j < i)%nat -> j <> 1%nat -> ~ withinTolerance pre post amount j) /\
  (exists ev w',
     processWallet host config "sig" analysis wallet tt = (Ok (Some ev), w') /\
     recipientAddress ev = "A" /\ matchedRange ev = range /\
     outgoingAmount ev = decrease pre post 1).
Proof.
  intros m keys tx host range wallet config analysis pre post amount.
  pose proof (C2_recipient_selection host config "sig" analysis wallet
                tt 1%nat tt tx m eq_refl eq_refl eq_refl) as T.
  cbv zeta in T. destruct T as (T1 & _ & _ & _ & T5).
  split; [reflexivity|]. split; [reflexivity|]. split; [reflexivity|].
  split; [vm_compute; reflexivity|].
  split.
  - apply (proj1 (T1 "A")). vm_compute. reflexivity.
  - apply (T5 "A" range).
    + vm_compute. reflexivity.
    + discriminate.
    + reflexivity.
    + vm_compute. reflexivity.
Defined.

(** C2, counterexample.  The tolerance is not a threshold on the exact
    amounts.  "CEX" pays 13.0001 SOL and "R" receives 13 SOL: the gap is
    exactly 1/10,000, and the scan selects "R" and the iteration emits the
    event.  "CEX" pays 2.0001 SOL and "R" receives 2 SOL: the gap is again
    exactly 1/10,000, and the scan selects nobody and the iteration emits
    nothing.  So neither [gap < 1/10000] nor [gap <= 1/10000] on the exact
    amounts describes the selection. *)
Lemma C2_tolerance_is_rounded :
  let keys := [EntryPubkeyObject "CEX"; EntryPubkeyObject "R"] in
  let wallet :=
    Env.mkCEXWallet "OKX" "CEX" [mkRange (JS.Finite 1) (JS.Finite 20)] in
  let config := Env.mkConfig "https://rpc" [wallet] in
  let analysis := mkAnalysis "sig" None [] [] ["CEX"; "R"] in
  let run m :=
    let tx := mkTx (Some m) keys None in
    let host := tableHost (fun _ => true) (fun _ => Ok []) (fun _ => Ok (Some tx)) in
    fst (processWallet host config "sig" analysis wallet tt) in
  let m1 := mkMeta [13000100000; 0] [0; 13000000000] in
  let m2 := mkMeta [2000100000; 0] [0; 2000000000] in
  (exactGap (preBalances m1) (postBalances m1)
     (decrease (preBalances m1) (postBalances m1) 0) 1 == TOLERANCE)%Q /\
  findRecipient ["CEX"; "R"] 0 (preBalances m1) (postBalances m1) 0
    (decreaseDouble (preBalances m1) (postBalances m1) 0) = Some "R" /\
  (exists ev, run m1 = Ok (Some ev) /\ recipientAddress ev = "R") /\
  (exactGap (preBalances m2) (postBalances m2)
     (decrease (preBalances m2) (postBalances m2) 0) 1 == TOLERANCE)%Q /\
  findRecipient ["CEX"; "R"] 0 (preBalances m2) (postBalances m2) 0
    (decreaseDouble (preBalances m2) (postBalances m2) 0) = None /\
  run m2 = Ok None.
Proof.
  cbv zeta.
  split; [vm_compute; reflexivity|].
  split; [vm_compute; reflexivity|].
  split; [eexists; split; vm_compute; reflexivity|].
  split; [vm_compute; reflexivity|].
  split; vm_compute; reflexivity.
Qed.

(** C9, witness: one configured wallet, one outflow in its range. *)
Lemma C9_events_of_configured_wallets_witness :
  let m := mkMeta [2000005000; 0] [1000000000; 1000000000] in
  let tx := mkTx (Some m) [EntryPubkeyObject "CEX"; EntryPubkeyObject "R"] None in
  let host := tableHost (fun _ => true) (fun _ => Ok []) (fun _ => Ok (Some tx)) in
  let wallet :=
    Env.mkCEXWallet "OKX" "CEX" [mkRange (JS.Finite (1 # 2)) (JS.Finite 2)] in
  let config := Env.mkConfig "https://rpc" [wallet] in
  let events := fst (processLogEvent host config "sig" [] tt) in
  NoDup (map Env.address (Env.cexWallets config)) /\
  (forall c w0, fst (getParsedTransaction host c "sig" w0) = Ok (Some tx)) /\
  map eventWallet events = [("OKX", "CEX")] /\
  NoDup (map cexAddress events) /\
  Forall (fun ev => cexAddress ev <> "R") events.
Proof.
  intros m tx host wallet config events.
  assert (N : NoDup (map Env.address (Env.cexWallets config)))
    by (repeat constructor; cbn; tauto).
  assert (S : forall c w0, fst (getParsedTransaction host c "sig" w0) = Ok (Some tx))
    by reflexivity.
  split; [exact N|]. split; [exact S|]. split; [reflexivity|].
  pose proof (C9_events_of_configured_wallets host config "sig" [] tt) as T.
  split.
  - exact (proj1 (proj2 (proj2 T)) N).
  - refine (proj2 (proj2 (proj2 (proj2 T))) tx S "R" 1%nat eq_refl _).
    vm_compute. discriminate.
Defined.

(** ** EventStreamClient *)

Section StreamClient.
Import WebSocket.

Lemma reconnect_schedules (l : WebSocketListener) :
  (reconnectAttempts l < maxReconnectAttempts l)%nat ->
  reconnect l =
  (setAttempts l (S (reconnectAttempts l)),
   [SetTimeout (backoff (reconnectDelay l) (S (reconnectAttempts l)))]).
Proof.
  intro H. unfold reconnect.
  destruct (Nat.leb_spec (maxReconnectAttempts l) (reconnectAttempts l)); [lia|].
  reflexivity.
Qed.

Lemma reconnect_gives_up (l : WebSocketListener) :
  (maxReconnectAttempts l <= reconnectAttempts l)%nat ->
  reconnect l = (l, [GiveUp]).
Proof.
  intro H. unfold reconnect.
  destruct (Nat.leb_spec (maxReconnectAttempts l) (reconnectAttempts l)); [|lia].
  reflexivity.
Qed.

Lemma reconnect_attempts_positive (l : WebSocketListener) :
  reconnectAttempts l <> 0%nat ->
  reconnectAttempts (fst (reconnect l)) <> 0%nat.
Proof.
  intro H. unfold reconnect.
  destruct (Nat.leb _ _); cbn; [exact H | discriminate].
Qed.

(** Only the open handler puts the counter back to zero. *)
Lemma reset_only_on_open (l : WebSocketListener) (e : Event) :
  reconnectAttempts l <> 0%nat ->
  reconnectAttempts (fst (step l e)) = 0%nat ->
  e = OnOpen.
Proof.
  intros Hn H. destruct e; trivial; exfalso; cbn in H.
  - exact (Hn H).
  - unfold close in H. cbn in H. destruct (ws l); cbn in H; exact (Hn H).
  - unfold handleMessage in H. destruct data as [m|]; [|exact (Hn H)].
    destruct (truthy (result m) && negb (truthy (subscriptionId l)));
      [exact (Hn H)|].
    destruct (method m) as [name|]; [|exact (Hn H)].
    destruct (String.eqb name "logsNotification"); exact (Hn H).
  - exact (Hn H).
  - destruct (ws l); cbn in H.
    + destruct (isManualClose l); [exact (Hn H)|].
      revert H. apply reconnect_attempts_positive. exact Hn.
    + destruct (isManualClose l); [exact (Hn H)|].
      revert H. apply reconnect_attempts_positive. exact Hn.
  - exact (Hn H).
Qed.

(** C8, as the code has it.  When the transport closes without a manual
    close and the counter is below the maximum, the counter becomes [n >= 1]
    and one timer is set, of delay [reconnectDelay * 2^(n-1)]: for the delay
    3000 the attempts 1 to 4 wait 3000, 6000, 12000 and 24000 ms.  When the
    counter has reached the maximum no timer is set and the listener gives
    up.  The counter is put back to zero by the open handler, whether or not
    a subscription is recorded, and by no other handler. *)
Theorem C8_reconnect_backoff (l : WebSocketListener) :
  (isManualClose l = false ->
   (reconnectAttempts l < maxReconnectAttempts l)%nat ->
   let n := S (reconnectAttempts l) in
   reconnectAttempts (fst (step l OnClose)) = n /\
   snd (step l OnClose) = [SetTimeout (reconnectDelay l * 2 ^ (Z.of_nat n - 1))])
  /\ map (backoff 3000) [1; 2; 3; 4]%nat = [3000; 6000; 12000; 24000]
  /\ (isManualClose l = false ->
      (maxReconnectAttempts l <= reconnectAttempts l)%nat ->
      reconnectAttempts (fst (step l OnClose)) = reconnectAttempts l /\
      snd (step l OnClose) = [GiveUp])
  /\ (isManualClose l = true -> snd (step l OnClose) = [])
  /\ reconnectAttempts (fst (step l OnOpen)) = 0%nat
  /\ subscriptionId (fst (step l OnOpen)) = subscriptionId l
  /\ (forall e,
        reconnectAttempts l <> 0%nat ->
        reconnectAttempts (fst (step l e)) = 0%nat ->
        e = OnOpen).
Proof.
  refine (conj _ (conj _ (conj _ (conj _ (conj _ (conj _ _)))))).
  - intros Hm Hlt n. cbn [step].
    assert (E : forall l1, isManualClose l1 = false ->
                reconnectAttempts l1 = reconnectAttempts l ->
                maxReconnectAttempts l1 = maxReconnectAttempts l ->
                reconnectDelay l1 = reconnectDelay l ->
                reconnectAttempts (fst (reconnect l1)) = n /\
                snd (reconnect l1) =
                  [SetTimeout (reconnectDelay l * 2 ^ (Z.of_nat n - 1))]).
    { intros l1 H1 H2 H3 H4. rewrite reconnect_schedules by lia. cbn.
      rewrite H2, H4. split; [reflexivity|]. unfold backoff.
      replace (Z.of_nat (S (reconnectAttempts l) - 1)) with (Z.of_nat n - 1)
        by (subst n; lia).
      reflexivity. }
    destruct (ws l); cbn; rewrite Hm; now apply E.
  - reflexivity.
  - intros Hm Hge. cbn [step].
    destruct (ws l); cbn; rewrite Hm; rewrite reconnect_gives_up; cbn; auto.
  - intro Hm. cbn [step]. destruct (ws l); cbn; now rewrite Hm.
  - cbn. reflexivity.
  - cbn. destruct (ws l); reflexivity.
  - intros e. apply reset_only_on_open.
Qed.

(** C8, witness: a fresh listener whose first connection is closed. *)
Lemma C8_reconnect_backoff_witness :
  let l := fst (run (create (mkWsConfig "wss://rpc" ["CEX"])) [CallConnect]) in
  isManualClose l = false /\
  (reconnectAttempts l < maxReconnectAttempts l)%nat /\
  reconnectAttempts (fst (step l OnClose)) = 1%nat /\
  snd (step l OnClose) = [SetTimeout 3000].
Proof.
  intro l.
  assert (Hm : isManualClose l = false) by reflexivity.
  assert (Hlt : (reconnectAttempts l < maxReconnectAttempts l)%nat)
    by (cbn; lia).
  split; [exact Hm|]. split; [exact Hlt|].
  exact (proj1 (C8_reconnect_backoff l) Hm Hlt).
Defined.

(** C8, counterexample.  The first connection closes before it opens, the
    timer of attempt 1 fires, and the second connection opens: the counter
    goes from 1 back to 0 although no subscription identifier was ever
    recorded; had the connection closed again at once, the next attempt would
    again be attempt 1. *)
Lemma C8_reset_before_subscribed :
  let l0 := create (mkWsConfig "wss://rpc" ["CEX"]) in
  let l1 := fst (run l0 [CallConnect; OnClose; TimerFired]) in
  let l2 := fst (step l1 OnOpen) in
  reconnectAttempts l1 = 1%nat /\
  reconnectAttempts l2 = 0%nat /\
  subscribed l1 = false /\ subscribed l2 = false /\
  timeouts (snd (run l2 [OnClose])) = [3000].
Proof. repeat split. Qed.

(** Ten failed attempts use up the ten timers; the eleventh close gives up. *)
Lemma eleventh_close_gives_up :
  let l0 := create (mkWsConfig "wss://rpc" ["CEX"]) in
  let '(l, actions) :=
    run l0 (CallConnect :: failedAttempts 10 ++ [OnClose])%list in
  timeouts actions
    = [3000; 6000; 12000; 24000; 48000; 96000; 192000; 384000; 768000; 1536000]
  /\ reconnectAttempts l = 10%nat
  /\ List.last actions CloseSocket = GiveUp.
Proof. vm_compute. repeat split. Qed.

End StreamClient.

(** ** End to end *)

(** A wallet configured with the range 10-20 pays 14.2 SOL and the fee to a
    recipient without history: one event, FIRST_TIME_ACTIVITY, range 10-20. *)
Example end_to_end_first_time :
  let m := mkMeta [20000000000; 0] [5799995000; 14200000000] in
  let tx := mkTx (Some m) [EntryPubkeyObject "W"; EntryPubkeyObject "R"] None in
  let host := tableHost (fun _ => true) (fun _ => Ok []) (fun _ => Ok (Some tx)) in
  exists ranges ev,
    Env.parseRanges "10-20" = Ok ranges /\
    fst (processLogEvent host
           (Env.mkConfig "https://rpc" [Env.mkCEXWallet "W-label" "W" ranges])
           "sig" [] tt) = [ev] /\
    eventWallet ev = ("W-label", "W") /\
    recipientAddress ev = "R" /\
    matchedRange ev = mkRange (JS.Finite 10) (JS.Finite 20) /\
    condition (scrutinyResult ev) = FIRST_TIME_ACTIVITY /\
    alertTriggered (scrutinyResult ev) = true.
Proof.
  do 2 eexists. split; [vm_compute; reflexivity|].
  split; [vm_compute; reflexivity|]. repeat split.
Qed.

(* ===================================================================== *)
(** * Further properties *)
(* ===================================================================== *)

(** ** Configuration loading *)

Lemma string_length_append (a b : string) :
  String.length (a ++ b) = (String.length a + String.length b)%nat.
Proof. induction a as [|c a IH]; cbn; [reflexivity | now rewrite IH]. Qed.

Lemma string_append_inv_tail (a b t : string) : a ++ t = b ++ t -> a = b.
Proof.
  revert b. induction a as [|c a IH]; intros [|d b] H; cbn in H.
  - reflexivity.
  - exfalso. apply (f_equal String.length) in H. cbn in H.
    rewrite string_length_append in H. lia.
  - exfalso. apply (f_equal String.length) in H. cbn in H.
    rewrite string_length_append in H. lia.
  - injection H as -> H. f_equal. now apply IH.
Qed.

Lemma indexString_inj (i j : nat) : indexString i = indexString j -> i = j.
Proof.
  unfold indexString. intro H.
  apply (f_equal DecimalString.NilEmpty.uint_of_string) in H.
  rewrite !DecimalString.NilEmpty.usu in H. injection H as H.
  now apply DecimalNat.Unsigned.to_uint_inj.
Qed.

Lemma labelKey_inj (i j : nat) : labelKey i = labelKey j -> i = j.
Proof.
  unfold labelKey. intro H. cbn in H. injection H as H.
  apply string_append_inv_tail in H. now apply indexString_inj.
Qed.

Lemma getenv_In (env : ProcessEnv) (key value : string) :
  getenv env key = Some value -> In key (map fst env).
Proof.
  induction env as [|[k v] rest IH]; cbn; [discriminate|].
  destruct (String.eqb k key) eqn:E.
  - apply String.eqb_eq in E. now left.
  - intro H. right. now apply IH.
Qed.

Lemma isSet_Some (value : option string) :
  isSet value = true -> exists v, value = Some v /\ v <> "".
Proof.
  destruct value as [[|c r]|]; cbn; try discriminate.
  intros _. eexists. split; [reflexivity | discriminate].
Qed.

Lemma NoDup_map_injective {A B} (f : A -> B) (l : list A) :
  (forall a b, f a = f b -> a = b) -> NoDup l -> NoDup (map f l).
Proof.
  intros Hinj. induction 1 as [|x l Hx _ IH]; cbn; constructor; trivial.
  intro Hin. apply in_map_iff in Hin as (y & Hy & Hin).
  apply Hinj in Hy. now subst.
Qed.

(** One step of the loop, by cases on the group at [index]. *)
Lemma loadWallets_step (fuel : nat) (env : ProcessEnv) (index : nat) :
  loadWallets (S fuel) env index =
  if groupComplete env index then
    match getenv env (labelKey index), getenv env (addressKey index),
          getenv env (rangeKey index) with
    | Some label, Some address, Some rangeStr =>
        match Env.parseRanges rangeStr with
        | Throw e => Some (Throw (InvalidRanges e))
        | Ok ranges =>
            match loadWallets fuel env (S index) with
            | Some (Ok wallets) =>
                Some (Ok (Env.mkCEXWallet label address ranges :: wallets))
            | other => other
            end
        end
    | _, _, _ => Some (Ok [])
    end
  else Some (Ok []).
Proof.
  cbn [loadWallets]. unfold groupComplete.
  destruct (getenv env (labelKey index)) as [label|]; [|reflexivity].
  destruct (getenv env (addressKey index)) as [address|];
    [|now rewrite andb_false_r].
  destruct (getenv env (rangeKey index)) as [rangeStr|];
    [|now rewrite andb_false_r].
  destruct (isSet (Some label) && isSet (Some address) && isSet (Some rangeStr));
    reflexivity.
Qed.

(** The loop uses up its bound only on complete groups. *)
Lemma loadWallets_exhausted (fuel : nat) (env : ProcessEnv) (index : nat) :
  loadWallets fuel env index = None ->
  forall j, (index <= j < index + fuel)%nat -> groupComplete env j = true.
Proof.
  revert index. induction fuel as [|fuel IH]; intros index H j Hj; [lia|].
  rewrite loadWallets_step in H.
  destruct (groupComplete env index) eqn:G; [|discriminate].
  destruct (getenv env (labelKey index)) as [label|]; [|discriminate].
  destruct (getenv env (addressKey index)) as [address|]; [|discriminate].
  destruct (getenv env (rangeKey index)) as [rangeStr|]; [|discriminate].
  destruct (Env.parseRanges rangeStr) as [ranges|e]; [|discriminate].
  destruct (loadWallets fuel env (S index)) as [[ws|e]|] eqn:R; try discriminate.
  assert (j = index \/ (S index <= j < S index + fuel)%nat) as [->|Hj'] by lia;
    trivial.
  now apply (IH (S index)).
Qed.

Lemma loadWallets_returns (fuel : nat) (env : ProcessEnv) (index : nat) :
  (List.length env < fuel)%nat -> loadWallets fuel env index <> None.
Proof.
  intros Hlt H.
  pose proof (loadWallets_exhausted _ _ _ H) as G.
  assert (Hincl : incl (map labelKey (seq index fuel)) (map fst env)).
  { intros k Hk. apply in_map_iff in Hk as (j & <- & Hj).
    apply in_seq in Hj. specialize (G j Hj). unfold groupComplete in G.
    apply andb_true_iff in G as [G _]. apply andb_true_iff in G as [G _].
    apply isSet_Some in G as (v & Hv & _). exact (getenv_In _ _ _ Hv). }
  assert (Hnd : NoDup (map labelKey (seq index fuel))).
  { apply NoDup_map_injective; [|apply seq_NoDup].
    intros a b. apply labelKey_inj. }
  pose proof (NoDup_incl_length Hnd Hincl) as L.
  rewrite !length_map, length_seq in L. lia.
Qed.

(** More iterations than needed do not change the result. *)
Lemma loadWallets_more_fuel (fuel extra : nat) (env : ProcessEnv) (index : nat) r :
  loadWallets fuel env index = Some r ->
  loadWallets (fuel + extra) env index = Some r.
Proof.
  revert index r. induction fuel as [|fuel IH]; intros index r H; [discriminate|].
  replace (S fuel + extra)%nat with (S (fuel + extra)) by lia.
  rewrite loadWallets_step in *.
  destruct (groupComplete env index); trivial.
  destruct (getenv env (labelKey index)) as [label|]; trivial.
  destruct (getenv env (addressKey index)) as [address|]; trivial.
  destruct (getenv env (rangeKey index)) as [rangeStr|]; trivial.
  destruct (Env.parseRanges rangeStr) as [ranges|e]; trivial.
  destruct (loadWallets fuel env (S index)) as [r'|] eqn:R.
  - rewrite (IH _ _ R). exact H.
  - destruct r; discriminate.
Qed.

(** X1. [loadConfig] returns or throws on every environment: the loop over
    the wallet groups ends within one iteration more than there are
    variables, and a larger bound gives the same outcome. *)
Theorem X1_loadConfig_terminates (env : ProcessEnv) :
  loadConfig env <> None /\
  forall extra, loadConfigWith (S (List.length env) + extra) env = loadConfig env.
Proof.
  unfold loadConfig, loadConfigWith.
  destruct (getenv env "RPC_ENDPOINT") as [[|c r]|];
    try (split; [discriminate | reflexivity]).
  destruct (loadWallets (S (List.length env)) env 1) as [r'|] eqn:R.
  - split.
    + destruct r' as [[|w ws]|e]; discriminate.
    + intro extra. now rewrite (loadWallets_more_fuel _ extra _ _ _ R).
  - exfalso. revert R. apply loadWallets_returns. lia.
Qed.

Lemma groupComplete_values (env : ProcessEnv) (i : nat) :
  groupComplete env i = true ->
  exists label address rangeStr,
    getenv env (labelKey i) = Some label /\ label <> "" /\
    getenv env (addressKey i) = Some address /\ address <> "" /\
    getenv env (rangeKey i) = Some rangeStr /\ rangeStr <> "".
Proof.
  unfold groupComplete. intro G.
  apply andb_true_iff in G as [G Gr]. apply andb_true_iff in G as [Gl Ga].
  apply isSet_Some in Gl as (l & -> & Hl).
  apply isSet_Some in Ga as (a & -> & Ha).
  apply isSet_Some in Gr as (r & -> & Hr).
  exists l, a, r. auto 10.
Qed.

(** The wallets the loop returns are the groups from [index] on, one after
    the other, and the group after the last one is incomplete. *)
Lemma loadWallets_ok (fuel : nat) (env : ProcessEnv) (index : nat) wallets :
  loadWallets fuel env index = Some (Ok wallets) ->
  (forall k w, nth_error wallets k = Some w -> walletOfGroup env (index + k) w)
  /\ groupComplete env (index + List.length wallets) = false.
Proof.
  revert index wallets. induction fuel as [|fuel IH]; intros index wallets H;
    [discriminate|].
  rewrite loadWallets_step in H.
  destruct (groupComplete env index) eqn:G.
  - destruct (groupComplete_values _ _ G)
      as (l & a & r & Hl & Hln & Ha & Han & Hr & Hrn).
    rewrite Hl, Ha, Hr in H.
    destruct (Env.parseRanges r) as [ranges|e] eqn:P; [|discriminate].
    destruct (loadWallets fuel env (S index)) as [[ws|e]|] eqn:R;
      try discriminate.
    injection H as <-. destruct (IH _ _ R) as [IHw IHg]. split.
    + intros [|k] w Hk; cbn in Hk.
      * injection Hk as <-. rewrite Nat.add_0_r. unfold walletOfGroup. cbn.
        repeat (split; trivial). exists r. auto.
      * rewrite Nat.add_succ_r. now apply (IHw k).
    + cbn [List.length]. now rewrite Nat.add_succ_r.
  - injection H as <-. split.
    + intros [|k] w Hk; discriminate.
    + cbn. now rewrite Nat.add_0_r.
Qed.

Lemma loadWallets_throw (fuel : nat) (env : ProcessEnv) (index : nat) e :
  loadWallets fuel env index = Some (Throw e) ->
  exists k rangeStr e',
    e = InvalidRanges e' /\
    (forall j, (j < k)%nat ->
       groupComplete env (index + j) = true /\
       exists rs ranges, getenv env (rangeKey (index + j)) = Some rs /\
                         Env.parseRanges rs = Ok ranges) /\
    groupComplete env (index + k) = true /\
    getenv env (rangeKey (index + k)) = Some rangeStr /\
    Env.parseRanges rangeStr = Throw e'.
Proof.
  revert index. induction fuel as [|fuel IH]; intros index H; [discriminate|].
  rewrite loadWallets_step in H.
  destruct (groupComplete env index) eqn:G; [|discriminate].
  destruct (groupComplete_values _ _ G)
    as (l & a & r & Hl & Hln & Ha & Han & Hr & Hrn).
  rewrite Hl, Ha, Hr in H.
  destruct (Env.parseRanges r) as [ranges|e0] eqn:P.
  - destruct (loadWallets fuel env (S index)) as [[ws|e1]|] eqn:R;
      try discriminate.
    injection H as ->.
    destruct (IH _ R) as (k & rs & e' & He & Hbefore & Hg & Hrs & Hp).
    exists (S k), rs, e'. rewrite Nat.add_succ_r.
    split; [exact He|]. split; [|auto].
    intros [|j] Hj.
    + rewrite Nat.add_0_r. split; trivial. eauto.
    + rewrite Nat.add_succ_r. apply Hbefore. lia.
  - injection H as <-. exists 0%nat, r, e0. rewrite Nat.add_0_r.
    split; [reflexivity|]. split; [|auto]. intros j Hj. lia.
Qed.

(** X2. When [loadConfig] returns a configuration, its endpoint is the value
    of RPC_ENDPOINT and is not empty, it has at least one wallet, wallet
    number [k] is described by the variables CEX_k_LABEL, CEX_k_ADDRESS and
    CEX_k_RANGE (all set, the ranges being the parse of the range variable),
    and the group after the last wallet is incomplete: loading stops at the
    first gap, whatever groups follow it. *)
Theorem X2_loadConfig_success (env : ProcessEnv) (cfg : Env.Config) :
  loadConfig env = Some (Ok cfg) ->
  getenv env "RPC_ENDPOINT" = Some (Env.rpcEndpoint cfg)
  /\ Env.rpcEndpoint cfg <> ""
  /\ Env.cexWallets cfg <> []
  /\ (forall k w, nth_error (Env.cexWallets cfg) k = Some w ->
                  walletOfGroup env (S k) w)
  /\ groupComplete env (S (List.length (Env.cexWallets cfg))) = false.
Proof.
  unfold loadConfig, loadConfigWith. intro H.
  destruct (getenv env "RPC_ENDPOINT") as [[|c r]|]; try discriminate.
  destruct (loadWallets (S (List.length env)) env 1) as [[[|w ws]|e]|] eqn:R;
    try discriminate.
  injection H as <-. cbn [Env.rpcEndpoint Env.cexWallets].
  destruct (loadWallets_ok _ _ _ _ R) as [Hw Hg].
  refine (conj eq_refl (conj _ (conj _ (conj Hw Hg)))); discriminate.
Qed.

(** X2, witness: two complete groups, a gap at 3, and a group 4 that is
    never read. *)
Lemma X2_loadConfig_success_witness :
  let env := [("RPC_ENDPOINT", "https://rpc");
              ("CEX_1_LABEL", "OKX"); ("CEX_1_ADDRESS", "A1");
              ("CEX_1_RANGE", "13-15,99-100");
              ("CEX_2_LABEL", "KUCOIN"); ("CEX_2_ADDRESS", "A2");
              ("CEX_2_RANGE", "49-50");
              ("CEX_4_LABEL", "LATE"); ("CEX_4_ADDRESS", "A4");
              ("CEX_4_RANGE", "1-2")] in
  exists cfg,
    loadConfig env = Some (Ok cfg) /\
    map Env.label (Env.cexWallets cfg) = ["OKX"; "KUCOIN"] /\
    groupComplete env (S (List.length (Env.cexWallets cfg))) = false.
Proof.
  intro env. eexists.
  assert (H : loadConfig env = Some (Ok (Env.mkConfig "https://rpc"
     [Env.mkCEXWallet "OKX" "A1"
        [mkRange (JS.Finite 13) (JS.Finite 15);
         mkRange (JS.Finite 99) (JS.Finite 100)];
      Env.mkCEXWallet "KUCOIN" "A2"
        [mkRange (JS.Finite 49) (JS.Finite 50)]])))
    by (vm_compute; reflexivity).
  split; [exact H|]. split; [reflexivity|].
  exact (proj2 (proj2 (proj2 (proj2 (X2_loadConfig_success env _ H))))).
Defined.

(** X3. The failures of [loadConfig].  It throws the endpoint error exactly
    when RPC_ENDPOINT is unset or empty, whatever the wallets; the no-wallet
    error exactly when the endpoint is set and group 1 is incomplete; and a
    range error only from the first group whose range string does not parse,
    all groups before it being complete and well-formed; that error is
    always the format error, never the bounds error. *)
Theorem X3_loadConfig_failures (env : ProcessEnv) :
  (loadConfig env = Some (Throw RpcEndpointNotSet) <->
   isSet (getenv env "RPC_ENDPOINT") = false)
  /\ (loadConfig env = Some (Throw NoWalletsConfigured) <->
      isSet (getenv env "RPC_ENDPOINT") = true /\ groupComplete env 1 = false)
  /\ (forall e,
        loadConfig env = Some (Throw (InvalidRanges e)) ->
        exists n rangeStr segment,
          e = InvalidRangeFormat segment /\
          In segment (JS.split "," rangeStr) /\
          (1 <= n)%nat /\
          (forall i, (1 <= i < n)%nat ->
             groupComplete env i = true /\
             exists rs ranges, getenv env (rangeKey i) = Some rs /\
                               Env.parseRanges rs = Ok ranges) /\
          groupComplete env n = true /\
          getenv env (rangeKey n) = Some rangeStr /\
          Env.parseRanges rangeStr = Throw e).
Proof.
  unfold loadConfig, loadConfigWith.
  destruct (getenv env "RPC_ENDPOINT") as [[|c r]|] eqn:Ep; cbn [isSet];
    try (refine (conj _ (conj _ _));
         [split; reflexivity
         |split; [discriminate | intros [H _]; discriminate]
         |intros e H; discriminate]).
  destruct (loadWallets (S (List.length env)) env 1) as [res|] eqn:R;
    [|exfalso; revert R; apply loadWallets_returns; lia].
  assert (Hthrow : forall e, res = Throw e -> exists e', e = InvalidRanges e').
  { intros e ->. destruct (loadWallets_throw _ _ _ _ R) as (_ & _ & e' & -> & _).
    eauto. }
  refine (conj _ (conj _ _)).
  - split; [|discriminate]. destruct res as [[|w ws]|e]; try discriminate.
    destruct (Hthrow e eq_refl) as (e' & ->). discriminate.
  - destruct res as [[|w ws]|e].
    + destruct (loadWallets_ok _ _ _ _ R) as [_ Hg]. cbn in Hg.
      split; auto.
    + destruct (loadWallets_ok _ _ _ _ R) as [Hw _].
      specialize (Hw 0%nat w eq_refl).
      destruct Hw as (Hl & Hln & Ha & Han & rs & Hr & Hrn & _).
      split; [discriminate|]. intros [_ G]. exfalso.
      unfold groupComplete in G. cbn [Nat.add] in *. rewrite Hl, Ha, Hr in G.
      destruct (Env.label w), (Env.address w), rs; try contradiction;
        discriminate.
    + destruct (Hthrow e eq_refl) as (e' & ->).
      split; [discriminate|]. intros [_ G]. exfalso.
      rewrite loadWallets_step, G in R. discriminate.
  - intros e H. destruct res as [[|w ws]|e0]; try discriminate.
    injection H as ->.
    destruct (loadWallets_throw _ _ _ _ R)
      as (k & rs & e' & [= ->] & Hbefore & Hg & Hrs & Hp).
    destruct (parseRanges_only_format_error _ _ Hp) as (seg & -> & _).
    exists (S k), rs, seg. cbn [Nat.add] in *.
    assert (Hin : In seg (JS.split "," rs)).
    { unfold Env.parseRanges in Hp.
      apply mapResult_throw in Hp as (b & x & a & E & _ & Hx).
      unfold Env.parseSegment in Hx. destruct (segmentBounds x).
      destruct (JS.isNaN n || JS.isNaN n0); [|discriminate].
      injection Hx as ->. rewrite E. apply in_elt. }
    split; [reflexivity|]. split; [exact Hin|]. split; [lia|].
    split; [|auto].
    intros i Hi. replace i with (S (i - 1)) by lia. apply Hbefore. lia.
Qed.

(** X3, witness: the range of group 2 has a bound that is not a number. *)
Lemma X3_loadConfig_failures_witness :
  let env := [("RPC_ENDPOINT", "https://rpc");
              ("CEX_1_LABEL", "OKX"); ("CEX_1_ADDRESS", "A1");
              ("CEX_1_RANGE", "13-15");
              ("CEX_2_LABEL", "KUCOIN"); ("CEX_2_ADDRESS", "A2");
              ("CEX_2_RANGE", "49-50,abc-70")] in
  loadConfig env = Some (Throw (InvalidRanges (InvalidRangeFormat "abc-70"))) /\
  exists n rangeStr,
    groupComplete env n = true /\
    getenv env (rangeKey n) = Some rangeStr /\
    Env.parseRanges rangeStr = Throw (InvalidRangeFormat "abc-70").
Proof.
  intro env.
  assert (H : loadConfig env
              = Some (Throw (InvalidRanges (InvalidRangeFormat "abc-70"))))
    by (vm_compute; reflexivity).
  split; [exact H|].
  destruct (proj2 (proj2 (X3_loadConfig_failures env)) _ H)
    as (n & rangeStr & seg & _ & _ & _ & _ & G & Hr & Hp).
  exists n, rangeStr. auto.
Defined.

(** ** The two range parsers *)

Lemma RangeParser_parseSegment_cases (seg : string) :
  match RangeParser.parseSegment seg with
  | Ok r =>
      segmentBounds seg = (min r, max r) /\ nonNumeric seg = false /\
      JS.le (min r) (max r) /\ Env.parseSegment seg = Ok r
  | Throw (InvalidRangeFormat s) =>
      s = seg /\ nonNumeric seg = true /\
      Env.parseSegment seg = Throw (InvalidRangeFormat seg)
  | Throw (InvalidRangeBounds lo hi) =>
      segmentBounds seg = (lo, hi) /\ nonNumeric seg = false /\
      JS.lt hi lo /\ Env.parseSegment seg = Ok (mkRange lo hi)
  end.
Proof.
  unfold RangeParser.parseSegment, Env.parseSegment, nonNumeric.
  destruct (segmentBounds seg) as [lo hi]. cbn [fst snd].
  destruct (JS.isNaN lo || JS.isNaN hi) eqn:En; [auto|].
  destruct (JS.gtb lo hi) eqn:Eg.
  - repeat split. now apply ltb_lt.
  - apply orb_false_iff in En as [Hlo Hhi]. repeat split.
    now apply not_gtb_le.
Qed.

Lemma Env_mapResult_throws_format (segs : list string) e :
  mapResult Env.parseSegment segs = Throw e ->
  exists seg, e = InvalidRangeFormat seg /\ In seg segs /\ nonNumeric seg = true.
Proof.
  intro H. apply mapResult_throw in H as (b & x & a & -> & _ & Hx).
  exists x. unfold Env.parseSegment, nonNumeric in *.
  destruct (segmentBounds x) as [lo hi]. cbn [fst snd].
  destruct (JS.isNaN lo || JS.isNaN hi); [|discriminate].
  injection Hx as <-. split; [reflexivity|]. split; [apply in_elt | reflexivity].
Qed.

(** X4. What [parseRangeString] of rangeParser.ts returns.  On success there
    is one range per comma-separated segment, in order, whose bounds are the
    numbers of the first two dash-separated parts of the segment, with
    [min <= max].  A format error names a segment of the string one of whose
    bounds is not a number; a bounds error carries the two bounds of a
    segment whose numbers are in the wrong order. *)
Theorem X4_parseRangeString_result (rangeStr : string) :
  match RangeParser.parseRangeString rangeStr with
  | Ok parsed =>
      Forall2 (fun seg r => segmentBounds seg = (min r, max r))
              (JS.split "," rangeStr) parsed
      /\ Forall (fun r => JS.le (min r) (max r)) parsed
  | Throw (InvalidRangeFormat seg) =>
      In seg (JS.split "," rangeStr) /\ nonNumeric seg = true
  | Throw (InvalidRangeBounds lo hi) =>
      exists seg, In seg (JS.split "," rangeStr) /\
                  segmentBounds seg = (lo, hi) /\ JS.lt hi lo
  end.
Proof.
  unfold RangeParser.parseRangeString.
  destruct (mapResult RangeParser.parseSegment (JS.split "," rangeStr))
    as [parsed|e] eqn:E.
  - apply mapResult_ok in E.
    induction E as [|seg r segs rs Hseg _ [IH1 IH2]]; [split; constructor|].
    pose proof (RangeParser_parseSegment_cases seg) as C. rewrite Hseg in C.
    destruct C as (Hb & _ & Hle & _). split; constructor; trivial.
  - apply mapResult_throw in E as (b & x & a & -> & _ & Hx).
    pose proof (RangeParser_parseSegment_cases x) as C. rewrite Hx in C.
    destruct e as [seg|lo hi].
    + destruct C as (-> & Hn & _). split; [apply in_elt | exact Hn].
    + destruct C as (Hb & _ & Hlt & _). exists x.
      split; [apply in_elt|]. now split.
Qed.

(** X5. The parser of rangeParser.ts against the parser that [loadConfig]
    uses, on the same string.  Where [parseRangeString] succeeds,
    [parseRanges] returns the same ranges; where it throws the format error,
    [parseRanges] throws the same error.  Where it throws the bounds error,
    the error carries the bounds of a segment of the string whose numbers are
    in the wrong order, and [parseRanges] either returns ranges in which the
    inverted range stands at the position of that segment, or throws the
    format error for a segment that comes after it in the string and one of
    whose bounds is not a number. *)
Theorem X5_parsers_compared (rangeStr : string) :
  match RangeParser.parseRangeString rangeStr with
  | Ok parsed => Env.parseRanges rangeStr = Ok parsed
  | Throw (InvalidRangeFormat seg) =>
      Env.parseRanges rangeStr = Throw (InvalidRangeFormat seg)
  | Throw (InvalidRangeBounds lo hi) =>
      JS.lt hi lo /\
      exists front inverted back,
        JS.split "," rangeStr = (front ++ inverted :: back)%list /\
        segmentBounds inverted = (lo, hi) /\
        match Env.parseRanges rangeStr with
        | Ok parsed =>
            In (mkRange lo hi) parsed /\
            nth_error parsed (List.length front) = Some (mkRange lo hi)
        | Throw e =>
            exists bad,
              e = InvalidRangeFormat bad /\ In bad back /\ nonNumeric bad = true
        end
  end.
Proof.
  unfold RangeParser.parseRangeString, Env.parseRanges.
  induction (JS.split "," rangeStr) as [|seg segs IH]; cbn [mapResult];
    [reflexivity|].
  pose proof (RangeParser_parseSegment_cases seg) as C.
  destruct (RangeParser.parseSegment seg) as [r|[s|lo hi]].
  - destruct C as (_ & _ & _ & ->).
    destruct (mapResult RangeParser.parseSegment segs) as [rs|[s|lo hi]].
    + now rewrite IH.
    + now rewrite IH.
    + destruct IH as (Hlt & front & inverted & back & E & Hb & IH).
      split; trivial. exists (seg :: front), inverted, back.
      split; [now rewrite E|]. split; [exact Hb|].
      destruct (mapResult Env.parseSegment segs) as [rs|e]; [|exact IH].
      destruct IH as [Hin Hnth]. split; [now right | exact Hnth].
  - destruct C as (-> & _ & ->). reflexivity.
  - destruct C as (Hb & _ & Hlt & ->). split; trivial.
    exists [], seg, segs. split; [reflexivity|]. split; [exact Hb|].
    destruct (mapResult Env.parseSegment segs) as [rs|e] eqn:E.
    + split; [now left | reflexivity].
    + destruct (Env_mapResult_throws_format _ _ E) as (bad & -> & Hin & Hn).
      exists bad. auto.
Qed.

(** ** The analysis of a transaction *)

Lemma filter_disjoint_length {A} (p q : A -> bool) (l : list A) :
  (forall x, p x = true -> q x = false) ->
  (List.length (filter p l) + List.length (filter q l) <= List.length l)%nat.
Proof.
  intro D. induction l as [|x l IH]; cbn; [lia|].
  destruct (p x) eqn:P.
  - rewrite (D x P). cbn. lia.
  - destruct (q x); cbn; lia.
Qed.

Section AnalysisProperties.
Context {World : Type} (host : Host World).

Lemma fetchAndParseTransaction_analysis c sig w analysis w' :
  fetchAndParseTransaction host c sig w = (Some analysis, w') ->
  exists tx,
    getParsedTransaction host c sig w = (Ok (Some tx), w') /\
    analysis = mkAnalysis sig (truthyTime (blockTime tx))
                 (outgoingOf (ta_accountKeys analysis) (preOf tx) (postOf tx))
                 (incomingOf (ta_accountKeys analysis) (preOf tx) (postOf tx))
                 (ta_accountKeys analysis).
Proof.
  unfold fetchAndParseTransaction, tryCatch, bind, ret, liftResult. intro H.
  destruct (getParsedTransaction host c sig w) as [[[tx|]|e] w1];
    try (injection H as H _; discriminate).
  exists tx.
  destruct (mapResult pubkeyToBase58 (accountKeys tx)) as [addresses|e];
    [|injection H as H _; discriminate].
  fold (preOf tx) in H. fold (postOf tx) in H.
  rewrite analyzeBalances_spec in H. injection H as <- <-. split; reflexivity.
Qed.

(** X6. Every analysis the analyzer returns is for the signature asked.  Each
    outgoing transfer has a positive amount, the placeholder recipient
    "multiple" and a sender from the account list; each incoming transfer has
    a positive amount, the placeholder sender and a recipient from the
    account list; and there are at most as many transfers as accounts, an
    account index never giving both an outgoing and an incoming one. *)
Theorem X6_analysis_invariants (c : Connection) (sig : string) (w : World) :
  match fetchAndParseTransaction host c sig w with
  | (Some a, _) =>
      ta_signature a = sig
      /\ Forall (fun t => (0 < amount t)%Q /\ to t = "multiple" /\
                          In (from t) (ta_accountKeys a))
                (outgoingTransfers a)
      /\ Forall (fun t => (0 < amount t)%Q /\ from t = "multiple" /\
                          In (to t) (ta_accountKeys a))
                (incomingTransfers a)
      /\ (List.length (outgoingTransfers a) + List.length (incomingTransfers a)
          <= List.length (ta_accountKeys a))%nat
  | (None, _) => True
  end.
Proof.
  destruct (fetchAndParseTransaction host c sig w) as [[a|] w'] eqn:E; [|exact I].
  destruct (fetchAndParseTransaction_analysis _ _ _ _ _ E) as (tx & _ & Ha).
  set (keys := ta_accountKeys a) in *. rewrite Ha. cbn.
  refine (conj eq_refl (conj _ (conj _ _))).
  - unfold outgoingOf. apply Forall_forall. intros t Ht.
    apply in_map_iff in Ht as (i & <- & Hi).
    apply filter_In in Hi as [Hi Hp]. apply in_seq in Hi. cbn.
    split; [now apply Qltb_lt|]. split; [reflexivity|].
    apply nth_In. lia.
  - unfold incomingOf. apply Forall_forall. intros t Ht.
    apply in_map_iff in Ht as (i & <- & Hi).
    apply filter_In in Hi as [Hi Hp]. apply in_seq in Hi. cbn.
    split; [|split; [reflexivity | apply nth_In; lia]].
    apply Qltb_lt in Hp.
    apply Qlt_le_trans with (y := (- decrease (preOf tx) (postOf tx) i)%Q).
    + apply (Qopp_lt_compat _ 0) in Hp. exact Hp.
    + apply Qle_trans with (y := Qabs (- decrease (preOf tx) (postOf tx) i)).
      * apply Qle_Qabs.
      * rewrite Qabs_opp. apply Qle_refl.
  - unfold outgoingOf, incomingOf. rewrite !length_map.
    etransitivity; [apply filter_disjoint_length|now rewrite length_seq].
    intros i Hp. now apply Qltb_asym.
Qed.

End AnalysisProperties.

(** ** More on the scrutiny check *)

Lemma append_nonempty_r (a b : string) : b <> "" -> a ++ b <> "".
Proof.
  intros Hb H. apply (f_equal String.length) in H.
  rewrite string_length_append in H. destruct b; [contradiction|].
  cbn in H. lia.
Qed.

Section ScrutinyResultShape.
Context {World : Type} (host : Host World) (connection : Connection).
Variables recipient cexAddress cexLabel : string.

(** X7. The shape of every scrutiny result.  The explanation is never
    empty.  The condition is LOOP_DETECTED exactly when the result carries
    the paying wallet as previous inflow source; a result with condition
    FIRST_TIME_ACTIVITY carries no source; and a result that carries a source
    also carries the signature of the previous transaction. *)
Theorem X7_scrutiny_result_shape (w : World) :
  let r := fst (performScrutinyCheck host connection recipient cexAddress
                  cexLabel w) in
  explanation r <> ""
  /\ (condition r = LOOP_DETECTED <-> previousInflowSource r = Some cexAddress)
  /\ (condition r = FIRST_TIME_ACTIVITY -> previousInflowSource r = None)
  /\ (previousInflowSource r <> None -> previousInflowSignature r <> None).
Proof.
  unfold performScrutinyCheck, tryCatch, bind, ret, raise.
  destruct (validPublicKey host recipient);
    [|cbn; repeat split; try discriminate; congruence].
  destruct (getSignaturesForAddress host connection recipient 1 w)
    as [[[|previousTx rest]|e] w1].
  - cbn. repeat split; try discriminate; congruence.
  - destruct (getParsedTransaction host connection (signature previousTx) w1)
      as [[[tx|]|e] w2].
    + destruct (meta tx) as [m|];
        [|cbn; repeat split; try discriminate; congruence].
      destruct (findInflow _ _ _ _ _ _) as [f s].
      destruct f; cbn [negb]; [destruct (String.eqb s cexAddress) eqn:Es|].
      * apply String.eqb_eq in Es. subst s. cbn.
        refine (conj _ (conj _ (conj _ _))); try discriminate;
          try (split; reflexivity).
        apply append_nonempty_r. discriminate.
      * apply String.eqb_neq in Es. cbn.
        refine (conj _ (conj _ (conj _ _))); try discriminate;
          first [ split; [discriminate | intros [= H]; contradiction]
                | intros; discriminate ].
      * cbn. repeat split; try discriminate; congruence.
    + cbn. repeat split; try discriminate; congruence.
    + cbn. repeat split; try discriminate; try congruence.
  - cbn. repeat split; try discriminate; try congruence.
Qed.

End ScrutinyResultShape.

(** X7, witness: the loop verdict of a previous transaction from "CEX". *)
Lemma X7_scrutiny_result_shape_witness :
  let m := mkMeta [5000000000; 0] [4000000000; 1000000000] in
  let tx := mkTx (Some m) [EntryPubkeyObject "CEX"; EntryPubkeyObject "R"] None in
  let host := tableHost (fun _ => true) (fun _ => Ok [mkSigInfo "prev"])
                (fun _ => Ok (Some tx)) in
  let r := fst (performScrutinyCheck host
                  (mkConnection "https://rpc" (Some "confirmed"))
                  "R" "CEX" "OKX" tt) in
  condition r = LOOP_DETECTED /\
  previousInflowSource r = Some "CEX" /\
  previousInflowSignature r <> None.
Proof.
  intros m tx host r.
  pose proof (X7_scrutiny_result_shape host
                (mkConnection "https://rpc" (Some "confirmed"))
                "R" "CEX" "OKX" tt) as T.
  assert (C : condition r = LOOP_DETECTED) by reflexivity.
  split; [exact C|].
  pose proof (proj1 (proj1 (proj2 T)) C) as S.
  split; [exact S|].
  apply (proj2 (proj2 (proj2 T))). intro H.
  discriminate (eq_trans (eq_sym S) H).
Defined.

(** A positive double subtracted from a finite double equal to it leaves
    zero. *)
Lemma double_sub_equal (x d : Double.double) :
  Double.isFinite d = true ->
  Double.ltb Double.zero x = true ->
  Double.eqb x d = true ->
  Double.sub x d = Double.zero.
Proof.
  intros Hfin Hp He.
  destruct x as [sx|sx| |sx mx ex], d as [sd|sd| |sd md ed];
    try discriminate; try (destruct sx; discriminate).
  assert (sx = sd /\ mx = md /\ ex = ed) as (<- & <- & <-).
  { unfold Double.eqb, SpecFloat.SFeqb, SpecFloat.SFcompare in He.
    destruct sx, sd; try discriminate;
      destruct (Z.compare ex ed) eqn:Ee; try discriminate;
      destruct (Pos.compare mx md) eqn:Em;
      try (change (PosDef.Pos.compare_cont Eq mx md) with (Pos.compare mx md) in He;
           rewrite Em in He; discriminate);
      apply Z.compare_eq in Ee; apply Pos.compare_eq in Em; auto. }
  unfold Double.sub, SpecFloat.SFsub. cbv zeta. now rewrite Z.sub_diag.
Qed.

(** What passes the equality test of the scrutiny check passes the tolerance
    test of the coordinator. *)
Lemma exact_within_tolerance (pre post : list Z) (i k : nat)
    (diff : Double.double) :
  Double.isFinite diff = true ->
  exactSourceAt pre post i diff k -> withinTolerance post pre diff k.
Proof.
  intros Hfin (_ & Hp & He). unfold withinTolerance, increaseDouble.
  change (solDouble (balanceAt pre k) (balanceAt post k))
    with (decreaseDouble pre post k).
  rewrite (double_sub_equal _ _ Hfin Hp He). reflexivity.
Qed.

(** X8. The exact search of the scrutiny check against the tolerance search
    of the coordinator run in reverse (with the balances before and after
    exchanged), on the same previous transaction and the same finite inflow.
    Whenever some account satisfies the exact test at an index [k], the
    tolerance search returns an address, found at [k] or before it; and when
    no earlier index passes the tolerance test, both searches return the
    address at [k].  Both tests are those the program evaluates, in double
    arithmetic. *)
Theorem X8_exact_match_refines_tolerance (addresses : list string)
    (pre post : list Z) (i k : nat) (diff : Double.double) (a : string) :
  Double.isFinite diff = true ->
  nth_error addresses k = Some a ->
  exactSourceAt pre post i diff k ->
  (exists k' a',
      (k' <= k)%nat /\ k' <> i /\ nth_error addresses k' = Some a' /\
      findRecipient addresses 0 post pre i diff = Some a')
  /\ ((forall j, (j < k)%nat -> j <> i -> ~ withinTolerance post pre diff j) ->
      findRecipient addresses 0 post pre i diff = Some a /\
      findInflowSource addresses 0 i pre post diff = a).
Proof.
  intros Hfin Hk Hex.
  pose proof (exact_within_tolerance _ _ _ _ _ Hfin Hex) as Hw.
  assert (Hne : k <> i) by apply Hex.
  split.
  - destruct (findRecipient addresses 0 post pre i diff) as [a'|] eqn:E.
    + apply findRecipient_some in E as (k' & Hk' & Hne' & Hw' & Hfirst).
      exists k', a'. repeat split; trivial.
      destruct (Nat.le_gt_cases k' k) as [L|L]; trivial.
      exfalso. exact (Hfirst k L Hne Hw).
    + exfalso. pose proof (proj1 (findRecipient_none _ _ _ _ _) E k) as N.
      apply N; trivial. apply nth_error_Some. congruence.
  - intro Hfirst. split.
    + apply findRecipient_some. exists k. auto.
    + destruct (findInflowSource_spec addresses 0 i pre post diff)
        as [(k0 & a0 & Hk0 & Hex0 & Hfirst0 & Hr)|[Hno _]]; cbn in *.
      * rewrite Hr. assert (k0 = k) as ->.
        { destruct (Nat.lt_trichotomy k0 k) as [L|[E|L]]; trivial; exfalso.
          - apply (Hfirst k0 L); [apply Hex0|].
            exact (exact_within_tolerance _ _ _ _ _ Hfin Hex0).
          - exact (Hfirst0 k L Hex). }
        congruence.
      * exfalso. apply (Hno k); trivial. apply nth_error_Some. congruence.
Qed.

(** X8, witness.  "R" receives 1 SOL; "B" falls by exactly 1 SOL and "A",
    before it, by 1.0001 SOL.  The exact search names "B"; the tolerance
    search stops at "A", whose computed distance from the inflow is below
    the tolerance.  With "A" absent both name "B". *)
Lemma X8_exact_match_refines_tolerance_witness :
  let pre := [3000100000; 3000000000; 0] in
  let post := [2000000000; 2000000000; 1000000000] in
  let diff := increaseDouble pre post 2 in
  let pre' := [3000000000; 0] in
  let post' := [2000000000; 1000000000] in
  let diff' := increaseDouble pre' post' 1 in
  Double.isFinite diff = true /\
  nth_error ["A"; "B"; "R"] 1 = Some "B" /\
  exactSourceAt pre post 2 diff 1 /\
  findInflowSource ["A"; "B"; "R"] 0 2 pre post diff = "B" /\
  findRecipient ["A"; "B"; "R"] 0 post pre 2 diff = Some "A" /\
  (exists k' a',
      (k' <= 1)%nat /\ k' <> 2%nat /\ nth_error ["A"; "B"; "R"] k' = Some a' /\
      findRecipient ["A"; "B"; "R"] 0 post pre 2 diff = Some a') /\
  exactSourceAt pre' post' 1 diff' 0 /\
  findRecipient ["B"; "R"] 0 post' pre' 1 diff' = Some "B" /\
  findInflowSource ["B"; "R"] 0 1 pre' post' diff' = "B".
Proof.
  intros pre post diff pre' post' diff'.
  assert (Hfin : Double.isFinite diff = true) by (vm_compute; reflexivity).
  assert (Hex : exactSourceAt pre post 2 diff 1).
  { split; [discriminate|]. split; vm_compute; reflexivity. }
  assert (Hfin' : Double.isFinite diff' = true) by (vm_compute; reflexivity).
  assert (Hex' : exactSourceAt pre' post' 1 diff' 0).
  { split; [discriminate|]. split; vm_compute; reflexivity. }
  split; [exact Hfin|]. split; [reflexivity|]. split; [exact Hex|].
  split; [vm_compute; reflexivity|]. split; [vm_compute; reflexivity|].
  split.
  - exact (proj1 (X8_exact_match_refines_tolerance ["A"; "B"; "R"] pre post 2 1
                    diff "B" Hfin eq_refl Hex)).
  - split; [exact Hex'|].
    apply (proj2 (X8_exact_match_refines_tolerance ["B"; "R"] pre' post' 1 0
                    diff' "B" Hfin' eq_refl Hex')).
    intros j Hj. lia.
Defined.

(** ** Short form of an address *)

Lemma substring_prefix (a rest : string) :
  substring 0 (String.length a) (a ++ rest) = a.
Proof.
  induction a as [|c a IH]; cbn.
  - now destruct rest.
  - now rewrite IH.
Qed.

Lemma substring_suffix (p s : string) :
  substring (String.length p) (String.length s) (p ++ s) = s.
Proof.
  induction p as [|c p IH]; cbn; [|exact IH].
  rewrite <- (substring_prefix s "") at 2.
  f_equal. clear. induction s as [|c s IH]; cbn; [reflexivity|now rewrite IH].
Qed.

Lemma substring_whole (n : nat) (s : string) :
  (String.length s <= n)%nat -> substring 0 n s = s.
Proof.
  revert n. induction s as [|c s IH]; intros n H.
  - now destruct n.
  - destruct n as [|n]; cbn in *; [lia|]. rewrite IH; [reflexivity|lia].
Qed.

(** X9. [formatAddressShort] keeps the first four and the last four
    characters around three dots: for an address that starts with the four
    characters [a] and ends with the four characters [b] the result is
    [a...b], eleven characters long; an address of at most four characters
    is written in full on both sides. *)
Theorem X9_formatAddressShort (address : string) :
  (forall a rest front b,
      address = a ++ rest -> address = front ++ b ->
      String.length a = 4%nat -> String.length b = 4%nat ->
      formatAddressShort address = a ++ "..." ++ b /\
      String.length (formatAddressShort address) = 11%nat)
  /\ ((String.length address <= 4)%nat ->
      formatAddressShort address = address ++ "..." ++ address).
Proof.
  unfold formatAddressShort, sliceFirst4, sliceLast4. split.
  - intros a rest front b Ha Hb La Lb.
    assert (H1 : substring 0 4 address = a)
      by (rewrite Ha, <- La; apply substring_prefix).
    assert (H2 : substring (String.length address - 4) 4 address = b).
    { rewrite Hb at 1. rewrite string_length_append, Lb, Nat.add_sub.
      rewrite Hb, <- Lb. apply substring_suffix. }
    rewrite H1, H2. split; [reflexivity|].
    rewrite !string_length_append, La, Lb. reflexivity.
  - intro L. rewrite substring_whole by exact L.
    replace (String.length address - 4)%nat with 0%nat by lia.
    now rewrite substring_whole by exact L.
Qed.

(** X9, witness: a wallet address of the README. *)
Lemma X9_formatAddressShort_witness :
  formatAddressShort "is6MTRHEgyFLNTfYcuV4QBWLjrZBfmhVNYR6ccgr8KV"
    = "is6M" ++ "..." ++ "r8KV" /\
  String.length (formatAddressShort "is6MTRHEgyFLNTfYcuV4QBWLjrZBfmhVNYR6ccgr8KV")
    = 11%nat.
Proof.
  exact (proj1 (X9_formatAddressShort
                  "is6MTRHEgyFLNTfYcuV4QBWLjrZBfmhVNYR6ccgr8KV")
           "is6M" "TRHEgyFLNTfYcuV4QBWLjrZBfmhVNYR6ccgr8KV"
           "is6MTRHEgyFLNTfYcuV4QBWLjrZBfmhVNYR6ccg" "r8KV"
           eq_refl eq_refl eq_refl eq_refl).
Defined.

(** ** More on the coordinator *)

Section CoordinatorFurther.
Context {World : Type} (host : Host World) (config : Env.Config).

(** Every event of the loop was emitted by the iteration of one of the
    wallets. *)
Lemma processWallets_origin sig txAnalysis wallets w ev :
  In ev (fst (processWallets host config sig txAnalysis wallets w)) ->
  exists cw w1 w2,
    In cw wallets /\
    processWallet host config sig txAnalysis cw w1 = (Ok (Some ev), w2).
Proof.
  revert w. induction wallets as [|cw rest IH]; intros w Hin; cbn in Hin;
    [contradiction|].
  destruct (processWallet host config sig txAnalysis cw w)
    as [[[ev0|]|e] w1] eqn:Ep.
  - destruct (processWallets host config sig txAnalysis rest w1)
      as [evs w2] eqn:Er.
    cbn in Hin. destruct Hin as [<-|Hin].
    + exists cw, w, w1. split; [now left | exact Ep].
    + assert (Hin' : In ev (fst (processWallets host config sig txAnalysis rest w1)))
        by now rewrite Er.
      destruct (IH _ Hin') as (cw' & wa & wb & Hcw & Hp).
      exists cw', wa, wb. split; [now right | exact Hp].
  - destruct (IH _ Hin) as (cw' & wa & wb & Hcw & Hp).
    exists cw', wa, wb. split; [now right | exact Hp].
  - contradiction.
Qed.

(** X10. Every event that [processLogEvent] emits is consistent with a
    configured wallet: it names that wallet, its matched range is the first
    of the wallet's ranges that contains the outgoing amount, the amount
    lies in that range, the recipient is not the empty string, and the
    scrutiny result is the one [performScrutinyCheck] returned for this
    recipient and this wallet. *)
Theorem X10_event_consistency (sig : string) (logs : list string) (w : World) :
  Forall (fun ev =>
            exists cw,
              In cw (Env.cexWallets config) /\
              eventWallet ev = configWallet cw /\
              RangeParser.getMatchingRange (JS.Finite (outgoingAmount ev))
                (Env.ranges cw) = Some (matchedRange ev) /\
              In (matchedRange ev) (Env.ranges cw) /\
              inside (JS.Finite (outgoingAmount ev)) (matchedRange ev) /\
              recipientAddress ev <> "" /\
              exists w1 w2,
                performScrutinyCheck host (connection config)
                  (recipientAddress ev) (Env.address cw) (Env.label cw) w1
                = (scrutinyResult ev, w2))
         (fst (processLogEvent host config sig logs w)).
Proof.
  unfold processLogEvent.
  destruct (fetchAndParseTransaction host (connection config) sig w)
    as [[analysis|] w0]; [|constructor].
  apply Forall_forall. intros ev Hin.
  destruct (processWallets_origin _ _ _ _ _ Hin) as (cw & w1 & w2 & Hcw & Hp).
  destruct (processWallet_emits _ _ _ _ _ _ _ _ Hp)
    as (idx & w1' & tx & m & _ & _ & _ & _ & _ & Hr & _ & Hne & Hw & _ & Hs).
  exists cw. split; trivial. split; trivial. split; trivial.
  pose proof (find_some _ _ Hr) as [Hin' Hins].
  split; trivial. split; [now apply inRange_inside|]. split; trivial. eauto.
Qed.

(** The wallets that run through leave the world they lead to. *)
Lemma RunsThrough_world sig txAnalysis wallets w w1 :
  RunsThrough host config sig txAnalysis wallets w w1 ->
  snd (processWallets host config sig txAnalysis wallets w) = w1.
Proof.
  induction 1 as [w|cw rest w o w1 w2 Hp _ IH]; cbn; [reflexivity|].
  rewrite Hp. destruct o as [ev|]; [|exact IH].
  destruct (processWallets host config sig txAnalysis rest w1) as [evs w3].
  exact IH.
Qed.

(** X11. An exception in the iteration of one wallet ends the loop.  When
    the iterations of the wallets before [cw] return and lead to the world
    [w1], and the iteration of [cw] throws there and leaves the world [w2],
    then, whatever wallets come after [cw], the loop over the whole list
    emits the events of the wallets before [cw] and ends in [w2]: no wallet
    after [cw] adds an event or reaches the node. *)
Theorem X11_exception_ends_loop sig txAnalysis before cw after w w1 e w2 :
  RunsThrough host config sig txAnalysis before w w1 ->
  processWallet host config sig txAnalysis cw w1 = (Throw e, w2) ->
  processWallets host config sig txAnalysis (before ++ cw :: after)%list w
  = (fst (processWallets host config sig txAnalysis before w), w2)
  /\ snd (processWallets host config sig txAnalysis before w) = w1.
Proof.
  intros Hb Hc. split; [|exact (RunsThrough_world _ _ _ _ _ Hb)].
  induction Hb as [w|b rest w o w1 w3 Hp _ IH]; cbn.
  - now rewrite Hc.
  - rewrite Hp. specialize (IH Hc). destruct o as [ev|]; [|exact IH].
    rewrite IH.
    destruct (processWallets host config sig txAnalysis rest w1) as [evs w4].
    reflexivity.
Qed.

(** X12. A transaction in which no configured wallet appears costs one
    fetch: [processLogEvent] emits nothing and leaves the node in the world
    that the fetch of the analyzer left. *)
Theorem X12_uninvolved_transaction (sig : string) (logs : list string) (w : World) :
  match fetchAndParseTransaction host (connection config) sig w with
  | (Some analysis, w1) =>
      Forall (fun cw => indexOf (Env.address cw) (ta_accountKeys analysis) = None)
             (Env.cexWallets config) ->
      processLogEvent host config sig logs w = ([], w1)
  | (None, w1) => processLogEvent host config sig logs w = ([], w1)
  end.
Proof.
  unfold processLogEvent.
  destruct (fetchAndParseTransaction host (connection config) sig w)
    as [[analysis|] w1]; [|reflexivity].
  induction 1 as [|cw rest Hcw _ IH]; cbn; [reflexivity|].
  unfold processWallet at 1. rewrite Hcw. cbn. exact IH.
Qed.

End CoordinatorFurther.

(** X11, witness.  The world counts the calls of [getParsedTransaction]; the
    node answers the first and lets every later one time out.  The wallet
    "ABSENT" is not in the transaction, the wallet "CEX" pays "R", and the
    iteration of the wallet "R" throws at its fetch, the second call: the
    loop emits the one event of "CEX" and ends after two calls, although a
    fourth wallet, "A", follows. *)
Lemma X11_exception_ends_loop_witness :
  let m := mkMeta [2000005000; 0; 0] [1000000000; 1000000000; 0] in
  let tx := mkTx (Some m) [EntryPubkeyObject "CEX"; EntryPubkeyObject "R";
                           EntryPubkeyObject "A"] None in
  let host :=
    mkHost nat (fun _ => true) (fun _ _ _ w => (Ok [], w))
      (fun _ _ w =>
         (match w with
          | O => Ok (Some tx)
          | S _ => Throw (ErrorObject "timeout")
          end, S w))
      (fun _ => 0) in
  let ranges := [mkRange (JS.Finite (1 # 2)) (JS.Finite 2)] in
  let absent := Env.mkCEXWallet "ABSENT" "X" ranges in
  let first := Env.mkCEXWallet "OKX" "CEX" ranges in
  let second := Env.mkCEXWallet "RCV" "R" ranges in
  let third := Env.mkCEXWallet "LAST" "A" ranges in
  let config := Env.mkConfig "https://rpc" [absent; first; second; third] in
  let analysis := mkAnalysis "sig" None [] [] ["CEX"; "R"; "A"] in
  RunsThrough host config "sig" analysis [absent; first] 0%nat 1%nat /\
  processWallet host config "sig" analysis second 1%nat
    = (Throw (ErrorObject "timeout"), 2%nat) /\
  map eventWallet (fst (processWallets host config "sig" analysis [absent; first] 0%nat))
    = [("OKX", "CEX")] /\
  processWallets host config "sig" analysis [absent; first; second; third] 0%nat
    = (fst (processWallets host config "sig" analysis [absent; first] 0%nat), 2%nat).
Proof.
  intros m tx host ranges absent first second third config analysis.
  assert (Hb : RunsThrough host config "sig" analysis [absent; first] 0%nat 1%nat).
  { apply (RunsCons host config "sig" analysis absent [first] 0%nat None 0%nat 1%nat);
      [reflexivity|].
    eapply (RunsCons host config "sig" analysis first [] 0%nat _ 1%nat 1%nat);
      [vm_compute; reflexivity | apply RunsNil]. }
  assert (Hc : processWallet host config "sig" analysis second 1%nat
               = (Throw (ErrorObject "timeout"), 2%nat)) by reflexivity.
  split; [exact Hb|]. split; [exact Hc|]. split; [vm_compute; reflexivity|].
  exact (proj1 (X11_exception_ends_loop host config "sig" analysis
                  [absent; first] second [third] 0%nat 1%nat _ 2%nat Hb Hc)).
Defined.

(** X12, witness: the configured wallet is not among the two accounts. *)
Lemma X12_uninvolved_transaction_witness :
  let m := mkMeta [2000005000; 0] [1000000000; 1000000000] in
  let tx := mkTx (Some m) [EntryPubkeyObject "A"; EntryPubkeyObject "B"] None in
  let host := tableHost (fun _ => true) (fun _ => Ok []) (fun _ => Ok (Some tx)) in
  let config :=
    Env.mkConfig "https://rpc"
      [Env.mkCEXWallet "OKX" "CEX" [mkRange (JS.Finite (1 # 2)) (JS.Finite 2)]] in
  Forall (fun cw => indexOf (Env.address cw) ["A"; "B"] = None)
         (Env.cexWallets config) /\
  processLogEvent host config "sig" [] tt = ([], tt).
Proof.
  intros m tx host config.
  assert (H : Forall (fun cw => indexOf (Env.address cw) ["A"; "B"] = None)
                     (Env.cexWallets config))
    by (repeat constructor).
  split; [exact H|].
  exact (X12_uninvolved_transaction host config "sig" [] tt H).
Defined.

(** ** More on the stream client *)

Section StreamClientFurther.
Import WebSocket.

Lemma timeouts_app (a b : list Action) :
  timeouts (a ++ b)%list = (timeouts a ++ timeouts b)%list.
Proof.
  induction a as [|x a IH]; cbn; [reflexivity|].
  destruct x; cbn; now rewrite IH.
Qed.

Lemma run_cons (l : WebSocketListener) (e : Event) (es : list Event) :
  run l (e :: es) =
  (fst (run (fst (step l e)) es),
   (snd (step l e) ++ snd (run (fst (step l e)) es))%list).
Proof.
  cbn [run]. destruct (step l e) as [l1 a1]. cbn.
  now destruct (run l1 es) as [l2 a2].
Qed.

(** No handler changes the settings of the listener. *)
Lemma step_settings (l : WebSocketListener) (e : Event) :
  config (fst (step l e)) = config l /\
  maxReconnectAttempts (fst (step l e)) = maxReconnectAttempts l /\
  reconnectDelay (fst (step l e)) = reconnectDelay l /\
  onLog (fst (step l e)) = onLog l.
Proof.
  destruct e; cbn.
  - auto.
  - unfold close. cbn. destruct (ws l); cbn; auto.
  - destruct (ws l); cbn; auto.
  - unfold handleMessage. destruct data as [m|]; [|auto].
    destruct (truthy (result m) && negb (truthy (subscriptionId l))); cbn; [auto|].
    destruct (method m) as [name|]; [|auto].
    destruct (String.eqb name "logsNotification"); auto.
  - auto.
  - unfold reconnect.
    destruct (ws l); cbn; destruct (isManualClose l); cbn; auto;
      destruct (Nat.leb _ _); cbn; auto.
  - auto.
Qed.

Lemma run_settings (es : list Event) (l : WebSocketListener) :
  config (fst (run l es)) = config l /\
  maxReconnectAttempts (fst (run l es)) = maxReconnectAttempts l /\
  reconnectDelay (fst (run l es)) = reconnectDelay l /\
  onLog (fst (run l es)) = onLog l.
Proof.
  revert l. induction es as [|e es IH]; intro l; [cbn; auto|].
  rewrite run_cons. cbn [fst].
  destruct (IH (fst (step l e))) as (H1 & H2 & H3 & H4).
  destruct (step_settings l e) as (S1 & S2 & S3 & S4).
  repeat split; congruence.
Qed.

(** The timers of one handler run, and the counter after it. *)
Lemma step_timers (l : WebSocketListener) (e : Event) :
  (reconnectAttempts l <= maxReconnectAttempts l)%nat ->
  (reconnectAttempts (fst (step l e)) <= maxReconnectAttempts l)%nat /\
  Forall (fun d => exists n, (1 <= n <= maxReconnectAttempts l)%nat /\
                             d = backoff (reconnectDelay l) n)
         (timeouts (snd (step l e))).
Proof.
  intro B. destruct e; cbn.
  - split; [exact B | constructor].
  - unfold close. cbn. destruct (ws l); cbn; split; trivial; constructor.
  - split; [lia|]. unfold subscribe.
    destruct (ws l) as [[]|] eqn:W; cbn; rewrite ?W; cbn; constructor.
  - unfold handleMessage. destruct data as [m|]; [|split; trivial; constructor].
    destruct (truthy (result m) && negb (truthy (subscriptionId l))); cbn;
      [split; trivial; constructor|].
    destruct (method m) as [name|]; [|split; trivial; constructor].
    destruct (String.eqb name "logsNotification"); cbn;
      [|split; trivial; constructor].
    split; trivial. unfold handleLogsNotification.
    destruct (result m) as [| |[[s lg]|]]; cbn; try constructor.
    destruct (onLog l); cbn; constructor.
  - split; [exact B | constructor].
  - assert (R : forall l1,
               reconnectAttempts l1 = reconnectAttempts l ->
               maxReconnectAttempts l1 = maxReconnectAttempts l ->
               reconnectDelay l1 = reconnectDelay l ->
               (reconnectAttempts (fst (reconnect l1)) <= maxReconnectAttempts l)%nat /\
               Forall (fun d => exists n, (1 <= n <= maxReconnectAttempts l)%nat /\
                                          d = backoff (reconnectDelay l) n)
                      (timeouts (snd (reconnect l1)))).
    { intros l1 H1 H2 H3. unfold reconnect.
      destruct (Nat.leb_spec (maxReconnectAttempts l1) (reconnectAttempts l1));
        cbn.
      - split; [lia | constructor].
      - split; [lia|]. constructor; [|constructor].
        exists (S (reconnectAttempts l1)). split; [lia|]. now rewrite H3. }
    destruct (ws l); cbn; destruct (isManualClose l); cbn;
      try (split; [exact B | constructor]); now apply R.
  - split; [exact B | constructor].
Qed.

Lemma run_timers (es : list Event) (l : WebSocketListener) :
  (reconnectAttempts l <= maxReconnectAttempts l)%nat ->
  (reconnectAttempts (fst (run l es)) <= maxReconnectAttempts l)%nat /\
  Forall (fun d => exists n, (1 <= n <= maxReconnectAttempts l)%nat /\
                             d = backoff (reconnectDelay l) n)
         (timeouts (snd (run l es))).
Proof.
  revert l. induction es as [|e es IH]; intros l B.
  - cbn. split; [exact B | constructor].
  - rewrite run_cons. cbn [fst snd]. rewrite timeouts_app.
    destruct (step_timers l e B) as [B1 T1].
    destruct (step_settings l e) as (_ & S2 & S3 & _).
    destruct (IH (fst (step l e))) as [B2 T2]; [now rewrite S2|].
    rewrite S2, S3 in *. split; trivial. apply Forall_app. now split.
Qed.

(** X13. Whatever happens to a listener built by [new WebSocketListener],
    its attempt counter never exceeds 10, and every timer it sets waits
    [3000 * 2^(n-1)] ms for an attempt number [n] from 1 to 10: at least
    3000 ms and at most 1,536,000 ms. *)
Theorem X13_counter_and_timers_bounded (cfg : WebSocketConfig)
    (trace : list Event) :
  (reconnectAttempts (fst (run (create cfg) trace)) <= 10)%nat
  /\ Forall (fun d => (exists n, (1 <= n <= 10)%nat /\
                                 d = 3000 * 2 ^ (Z.of_nat n - 1))
                      /\ 3000 <= d <= 1536000)
            (timeouts (snd (run (create cfg) trace))).
Proof.
  destruct (run_timers trace (create cfg)) as [B T]; [cbn; lia|].
  split; [exact B|]. eapply Forall_impl; [|exact T].
  intros d (n & Hn & ->). unfold backoff.
  change (maxReconnectAttempts (create cfg)) with 10%nat in Hn.
  change (reconnectDelay (create cfg)) with 3000.
  replace (Z.of_nat (n - 1)) with (Z.of_nat n - 1) by lia.
  split; [eauto|].
  assert (1 <= 2 ^ (Z.of_nat n - 1) <= 2 ^ 9).
  { split.
    - apply (Z.pow_le_mono_r 2 0 (Z.of_nat n - 1)); lia.
    - apply Z.pow_le_mono_r; lia. }
  change (2 ^ 9) with 512 in *. lia.
Qed.

Local Ltac finish_with Done NG W :=
  apply Done;
  [ cbn; rewrite ?W; cbn; trivial
  | cbn; rewrite ?W; reflexivity
  | apply NG; cbn; rewrite ?W; reflexivity ].

Lemma step_after_manual_close (l : WebSocketListener) (e : Event) :
  isManualClose l = true ->
  isManualClose (fst (step l e)) = true /\
  timeouts (snd (step l e)) = [] /\
  ~ In GiveUp (snd (step l e)).
Proof.
  intro M.
  assert (Done : forall (l' : WebSocketListener) (acts : list Action),
             isManualClose l' = true -> timeouts acts = [] ->
             (forall a, In a acts -> a <> GiveUp) ->
             isManualClose l' = true /\ timeouts acts = [] /\ ~ In GiveUp acts).
  { intros l' acts H1 H2 H3. repeat split; trivial.
    intro H. exact (H3 _ H eq_refl). }
  assert (NG : forall (acts : list Action),
             forallb (fun a => match a with GiveUp => false | _ => true end) acts
             = true ->
             forall a, In a acts -> a <> GiveUp).
  { intros acts H a Hin ->. rewrite forallb_forall in H.
    specialize (H _ Hin). discriminate. }
  assert (W0 : True) by exact I.
  destruct e; cbn [step].
  - finish_with Done NG W0.
  - unfold close. destruct (ws l) eqn:W; finish_with Done NG W.
  - unfold subscribe. destruct (ws l) as [[]|] eqn:W; finish_with Done NG W.
  - unfold handleMessage. destruct data as [m|]; [|finish_with Done NG W0].
    destruct (truthy (result m) && negb (truthy (subscriptionId l)));
      [finish_with Done NG W0|].
    destruct (method m) as [name|]; [|finish_with Done NG W0].
    destruct (String.eqb name "logsNotification"); [|finish_with Done NG W0].
    unfold handleLogsNotification.
    destruct (result m) as [| |[[s lg]|]]; try finish_with Done NG W0.
    destruct (onLog l); finish_with Done NG W0.
  - finish_with Done NG W0.
  - destruct (ws l) eqn:W; cbn [isManualClose setWs]; rewrite M;
      finish_with Done NG W.
  - finish_with Done NG W0.
Qed.

(** X14. [close()] is final.  After it, whatever events follow, also a new
    [connect()] and further transport closes, the manual-close flag stays
    set, no reconnect timer is ever set and the listener never reports that
    it gives up. *)
Theorem X14_manual_close_is_final (l : WebSocketListener) (trace : list Event) :
  let after := run (fst (step l CallClose)) trace in
  isManualClose (fst after) = true
  /\ timeouts (snd after) = []
  /\ ~ In GiveUp (snd after).
Proof.
  cbv zeta.
  assert (M : isManualClose (fst (step l CallClose)) = true)
    by (cbn; unfold close; cbn; destruct (ws l); reflexivity).
  revert M. generalize (fst (step l CallClose)). clear l.
  induction trace as [|e es IH]; intros l M.
  - cbn. repeat split; trivial. tauto.
  - rewrite run_cons. cbn [fst snd].
    destruct (step_after_manual_close l e M) as (M1 & T1 & G1).
    destruct (IH _ M1) as (M2 & T2 & G2).
    rewrite timeouts_app, T1, T2. repeat split; trivial.
    intro H. apply in_app_or in H as [H|H]; tauto.
Qed.

Lemma step_subscription_kept (l : WebSocketListener) (e : Event) :
  subscribed l = true ->
  subscriptionId (fst (step l e)) = subscriptionId l.
Proof.
  unfold subscribed. intro S. destruct e; cbn; trivial.
  - unfold close. cbn. now destruct (ws l).
  - now destruct (ws l).
  - unfold handleMessage. destruct data as [m|]; trivial.
    rewrite S, andb_false_r.
    destruct (method m) as [name|]; trivial.
    now destruct (String.eqb name "logsNotification").
  - unfold reconnect.
    destruct (ws l); cbn; destruct (isManualClose l); cbn; trivial;
      now destruct (Nat.leb _ _).
Qed.

(** X15. A recorded subscription identifier is never replaced: once the
    listener holds one, it holds the same one after every sequence of events,
    so the response to the subscription request sent after a reconnect is
    not recorded. *)
Theorem X15_subscription_id_is_kept (l : WebSocketListener) (trace : list Event) :
  subscribed l = true ->
  subscriptionId (fst (run l trace)) = subscriptionId l.
Proof.
  revert l. induction trace as [|e es IH]; intros l S; [reflexivity|].
  rewrite run_cons. cbn [fst].
  pose proof (step_subscription_kept l e S) as K.
  rewrite IH; [exact K|]. unfold subscribed in *. now rewrite K.
Qed.

(** X15, witness: subscribed with identifier 7, then a reconnect whose
    subscription response carries 8. *)
Lemma X15_subscription_id_is_kept_witness :
  let l := fst (run (create (mkWsConfig "wss://rpc" ["CEX"]))
                  [CallConnect; OnOpen;
                   OnMessage (Some (mkMessage (JNumber 7) None))]) in
  let trace := [OnClose; TimerFired; OnOpen;
                OnMessage (Some (mkMessage (JNumber 8) None))] in
  subscribed l = true /\
  subscriptionId (fst (run l trace)) = JNumber 7.
Proof.
  intros l trace.
  assert (S : subscribed l = true) by reflexivity.
  split; [exact S|].
  exact (X15_subscription_id_is_kept l trace S).
Defined.

(** X16. When a notification reaches the handler.  A handler run calls
    [onLog(signature, logs)] exactly when the event is a message that
    parses, the listener already holds a subscription identifier, a handler
    is registered, the method is [logsNotification] and [result.value]
    carries the signature and the logs; it then calls it once.  A message
    with a truthy [result] that arrives before any identifier is held is
    taken as the subscription response and is not delivered. *)
Theorem X16_notification_delivery (l : WebSocketListener) (e : Event)
    (sig : string) (logs : list string) :
  (In (CallOnLog sig logs) (snd (step l e)) <->
   exists m,
     e = OnMessage (Some m) /\
     subscribed l = true /\ onLog l = true /\
     method m = Some "logsNotification" /\
     result m = JObject (Some (sig, logs)))
  /\ (In (CallOnLog sig logs) (snd (step l e)) ->
      snd (step l e) = [CallOnLog sig logs] /\ fst (step l e) = l)
  /\ (forall m,
        e = OnMessage (Some m) -> subscribed l = false ->
        truthy (result m) = true ->
        snd (step l e) = [] /\ subscriptionId (fst (step l e)) = result m).
Proof.
  assert (Main : forall m,
    In (CallOnLog sig logs) (snd (handleMessage l (Some m))) ->
    subscribed l = true /\ onLog l = true /\
    method m = Some "logsNotification" /\
    result m = JObject (Some (sig, logs)) /\
    handleMessage l (Some m) = (l, [CallOnLog sig logs])).
  { intros m H. unfold handleMessage in *. unfold subscribed.
    destruct (truthy (result m)) eqn:Tr;
      destruct (truthy (subscriptionId l)) eqn:Ts; cbn [andb negb] in *;
      try (cbn in H; contradiction).
    - destruct (method m) as [name|]; [|cbn in H; contradiction].
      destruct (String.eqb name "logsNotification") eqn:En;
        [|cbn in H; contradiction].
      apply String.eqb_eq in En. subst name.
      unfold handleLogsNotification in *.
      destruct (result m) as [|n|[[s lg]|]]; try (cbn in H; contradiction).
      destruct (onLog l); [|cbn in H; contradiction].
      cbn in H. destruct H as [[= -> ->]|[]]. auto.
    - destruct (method m) as [name|]; [|cbn in H; contradiction].
      destruct (String.eqb name "logsNotification"); [|cbn in H; contradiction].
      unfold handleLogsNotification in H.
      destruct (result m) as [|n|[[s lg]|]]; try discriminate;
        cbn in H; contradiction.
    - destruct (method m) as [name|]; [|cbn in H; contradiction].
      destruct (String.eqb name "logsNotification"); [|cbn in H; contradiction].
      unfold handleLogsNotification in H.
      destruct (result m) as [|n|[[s lg]|]]; try discriminate;
        cbn in H; contradiction. }
  assert (Only : In (CallOnLog sig logs) (snd (step l e)) ->
                 exists m, e = OnMessage (Some m)).
  { destruct e; cbn; try (intros [H|[]]; discriminate); try contradiction.
    - unfold close. cbn. destruct (ws l); cbn; [intros [H|[]]; discriminate|tauto].
    - unfold subscribe. destruct (ws l) as [[]|] eqn:W; cbn; rewrite ?W; cbn;
        try tauto; intros [H|[]]; discriminate.
    - destruct data as [m|]; [eauto | cbn; tauto].
    - unfold reconnect.
      destruct (ws l); cbn; destruct (isManualClose l); cbn; try tauto;
        destruct (Nat.leb _ _); cbn; intros [H|[]]; discriminate. }
  refine (conj _ (conj _ _)).
  - split.
    + intro H. destruct (Only H) as (m & ->). exists m.
      destruct (Main m H) as (H1 & H2 & H3 & H4 & _). auto.
    + intros (m & -> & S & O & Hm & Hr). cbn. unfold handleMessage.
      unfold subscribed in S. rewrite S, andb_false_r, Hm. cbn.
      unfold handleLogsNotification. rewrite Hr, O. now left.
  - intro H. destruct (Only H) as (m & ->).
    destruct (Main m H) as (_ & _ & _ & _ & E). cbn [step]. now rewrite E.
  - intros m -> S T. cbn. unfold handleMessage.
    unfold subscribed in S. rewrite S, T. cbn. auto.
Qed.

(** X16, witness: a notification after the subscription response. *)
Lemma X16_notification_delivery_witness :
  let l := registerOnLog
             (fst (run (create (mkWsConfig "wss://rpc" ["CEX"]))
                     [CallConnect; OnOpen;
                      OnMessage (Some (mkMessage (JNumber 7) None))])) in
  let m := mkMessage (JObject (Some ("sig", ["log"]))) (Some "logsNotification") in
  subscribed l = true /\ onLog l = true /\
  In (CallOnLog "sig" ["log"]) (snd (step l (OnMessage (Some m)))).
Proof.
  intros l m. split; [reflexivity|]. split; [reflexivity|].
  apply (proj2 (proj1 (X16_notification_delivery l (OnMessage (Some m))
                         "sig" ["log"]))).
  exists m. repeat split.
Defined.

Lemma step_counts_timers (l : WebSocketListener) (e : Event) :
  e <> OnOpen ->
  reconnectAttempts (fst (step l e))
  = (reconnectAttempts l + timerCount (snd (step l e)))%nat.
Proof.
  unfold timerCount. intro Ne. destruct e; cbn; try lia.
  - unfold close. cbn. destruct (ws l); cbn; lia.
  - contradiction.
  - unfold handleMessage. destruct data as [m|]; cbn; [|lia].
    destruct (truthy (result m) && negb (truthy (subscriptionId l))); cbn; [lia|].
    destruct (method m) as [name|]; cbn; [|lia].
    destruct (String.eqb name "logsNotification"); cbn; [|lia].
    unfold handleLogsNotification.
    destruct (result m) as [|n|[[s lg]|]]; cbn; try lia.
    destruct (onLog l); cbn; lia.
  - unfold reconnect.
    destruct (ws l); cbn; destruct (isManualClose l); cbn; try lia;
      destruct (Nat.leb _ _); cbn; lia.
Qed.

(** X17. Between two opens the counter counts the timers.  Over a sequence
    of events without an open, the attempt counter grows by exactly the
    number of reconnect timers set; starting within the maximum, at most
    [maxReconnectAttempts - reconnectAttempts] timers are set before the
    next open. *)
Theorem X17_timers_between_opens (l : WebSocketListener) (trace : list Event) :
  ~ In OnOpen trace ->
  reconnectAttempts (fst (run l trace))
  = (reconnectAttempts l + timerCount (snd (run l trace)))%nat
  /\ ((reconnectAttempts l <= maxReconnectAttempts l)%nat ->
      (timerCount (snd (run l trace))
       <= maxReconnectAttempts l - reconnectAttempts l)%nat).
Proof.
  intro No.
  assert (E : reconnectAttempts (fst (run l trace))
              = (reconnectAttempts l + timerCount (snd (run l trace)))%nat).
  { revert l. induction trace as [|e es IH]; intro l; [cbn; lia|].
    rewrite run_cons. cbn [fst snd]. unfold timerCount in *.
    rewrite timeouts_app, length_app.
    rewrite IH by (intro H; apply No; now right).
    rewrite (step_counts_timers l e) by (intros ->; apply No; now left).
    unfold timerCount. lia. }
  split; [exact E|].
  intro B. destruct (run_timers trace l B) as [B' _]. lia.
Qed.

(** X17, witness: three failed attempts of a fresh listener. *)
Lemma X17_timers_between_opens_witness :
  let l := create (mkWsConfig "wss://rpc" ["CEX"]) in
  let trace := (CallConnect :: failedAttempts 3)%list in
  ~ In OnOpen trace /\
  reconnectAttempts (fst (run l trace)) = 3%nat /\
  timerCount (snd (run l trace)) = 3%nat.
Proof.
  intros l trace.
  assert (No : ~ In OnOpen trace)
    by (cbn; intros H; repeat (destruct H as [H|H]; [discriminate|]); exact H).
  split; [exact No|].
  pose proof (proj1 (X17_timers_between_opens l trace No)) as E.
  split; [reflexivity|].
  change (reconnectAttempts l) with 0%nat in E. cbn [Nat.add] in E.
  rewrite <- E. reflexivity.
Defined.

End StreamClientFurther.

(** ** Start of the listener *)

Lemma replaceFirst_absent (pattern replacement s : string) :
  occurs pattern s = false -> replaceFirst pattern replacement s = s.
Proof.
  induction s as [|c s IH]; cbn [occurs replaceFirst]; intro H;
    apply orb_false_iff in H as [Hp Hr]; rewrite Hp; [reflexivity|].
  now rewrite IH.
Qed.

Lemma prefix_empty (s : string) : String.prefix "" s = true.
Proof. now destruct s. Qed.

(** X18. The WebSocket endpoint that [startListener] derives from the RPC
    endpoint.  An endpoint [https://rest] becomes [wss://rest] when [rest]
    does not contain [http://]; an endpoint [http://rest] becomes
    [ws://rest] when [rest] does not contain [https://]; an endpoint that
    contains neither scheme is passed on unchanged. *)
Theorem X18_websocket_endpoint (rest : string) :
  (occurs "http://" rest = false ->
   wsEndpointOf ("https://" ++ rest) = "wss://" ++ rest)
  /\ (occurs "https://" rest = false ->
      wsEndpointOf ("http://" ++ rest) = "ws://" ++ rest)
  /\ (occurs "https://" rest = false -> occurs "http://" rest = false ->
      wsEndpointOf rest = rest).
Proof.
  unfold wsEndpointOf. refine (conj _ (conj _ _)).
  - intro H. cbn. rewrite prefix_empty. cbn.
    now rewrite (replaceFirst_absent _ _ _ H).
  - intro H. cbn. rewrite (replaceFirst_absent _ _ _ H). cbn.
    now rewrite prefix_empty.
  - intros H1 H2. now rewrite (replaceFirst_absent _ _ _ H1),
                              (replaceFirst_absent _ _ _ H2).
Qed.

(** X18, witness: the public endpoint of the README. *)
Lemma X18_websocket_endpoint_witness :
  occurs "http://" "api.mainnet-beta.solana.com" = false /\
  wsEndpointOf "https://api.mainnet-beta.solana.com"
  = "wss://api.mainnet-beta.solana.com".
Proof.
  assert (H : occurs "http://" "api.mainnet-beta.solana.com" = false)
    by reflexivity.
  split; [exact H|].
  exact (proj1 (X18_websocket_endpoint "api.mainnet-beta.solana.com") H).
Defined.

Section ListenerSettings.
Import WebSocket.

Lemma step_actions (l : WebSocketListener) (e : Event) :
  Forall (actionOf (config l)) (snd (step l e)).
Proof.
  destruct e; cbn [step].
  - repeat constructor.
  - unfold close. cbn. destruct (ws l); repeat constructor.
  - unfold subscribe.
    destruct (ws l) as [[]|] eqn:W; cbn; rewrite ?W; repeat constructor.
  - unfold handleMessage. destruct data as [m|]; [|constructor].
    destruct (truthy (result m) && negb (truthy (subscriptionId l)));
      [constructor|].
    destruct (method m) as [name|]; [|constructor].
    destruct (String.eqb name "logsNotification"); [|constructor].
    unfold handleLogsNotification. cbn.
    destruct (result m) as [|n|[[s lg]|]]; try constructor.
    destruct (onLog l); repeat constructor.
  - constructor.
  - unfold reconnect.
    destruct (ws l); cbn; destruct (isManualClose l); cbn; try constructor;
      destruct (Nat.leb _ _); repeat constructor.
  - repeat constructor.
Qed.

Lemma run_actions (es : list Event) (l : WebSocketListener) :
  Forall (actionOf (config l)) (snd (run l es)).
Proof.
  revert l. induction es as [|e es IH]; intro l; [constructor|].
  rewrite run_cons. cbn [snd]. apply Forall_app. split.
  - apply step_actions.
  - specialize (IH (fst (step l e))).
    destruct (step_settings l e) as (C & _). now rewrite C in IH.
Qed.

(** X19. A listener keeps to its settings.  In any state and over any
    sequence of handler runs, every socket is opened to the endpoint of the
    settings and every subscription request mentions their addresses; the
    settings and the registered handler do not change.  A call of [connect]
    opens one socket to that endpoint, and the open event of a socket that
    the listener still holds sends one subscription request with those
    addresses. *)
Theorem X19_listener_keeps_settings (l : WebSocketListener)
    (trace : list Event) :
  Forall (actionOf (config l)) (snd (run l trace))
  /\ config (fst (run l trace)) = config l
  /\ onLog (fst (run l trace)) = onLog l
  /\ snd (step l CallConnect) = [OpenSocket (ws_endpoint (config l))]
  /\ (ws l <> None ->
      snd (step l OnOpen) = [SendSubscribe (mentions (config l))]).
Proof.
  destruct (run_settings trace l) as (C & _ & _ & O).
  refine (conj (run_actions trace l) (conj C (conj O (conj eq_refl _)))).
  intro W. cbn [step snd]. unfold subscribe.
  destruct (ws l) as [s|] eqn:E; [|contradiction]. reflexivity.
Qed.

End ListenerSettings.

(** ** Ranges that match nothing *)

Lemma le_trans (a b c : JS.number) : JS.le a b -> JS.le b c -> JS.le a c.
Proof.
  destruct a, b, c; cbn; try tauto. apply Qle_trans.
Qed.

Lemma inRange_wellOrdered (amount : JS.number) (r : Range) :
  RangeParser.inRange amount r = true -> wellOrdered r = true.
Proof.
  intro H. apply inRange_inside in H as [H1 H2].
  apply leb_le. exact (le_trans _ _ _ H1 H2).
Qed.

(** X20. A range whose bounds are in the wrong order, as [parseRanges] of
    env.ts can load it, or that has a NaN bound, matches no amount: leaving
    such ranges out changes neither the answer of [isAmountInRange] nor the
    range that [getMatchingRange] returns. *)
Theorem X20_inverted_ranges_are_dead (amount : JS.number) (ranges : list Range) :
  RangeParser.isAmountInRange amount ranges
  = RangeParser.isAmountInRange amount (filter wellOrdered ranges)
  /\ RangeParser.getMatchingRange amount ranges
     = RangeParser.getMatchingRange amount (filter wellOrdered ranges)
  /\ Forall (fun r => wellOrdered r = false ->
                      RangeParser.inRange amount r = false) ranges.
Proof.
  unfold RangeParser.isAmountInRange, RangeParser.getMatchingRange.
  refine (conj _ (conj _ _)).
  - induction ranges as [|r rest IH]; cbn; [reflexivity|].
    destruct (RangeParser.inRange amount r) eqn:E.
    + rewrite (inRange_wellOrdered _ _ E). cbn. now rewrite E.
    + destruct (wellOrdered r); cbn; rewrite ?E; exact IH.
  - induction ranges as [|r rest IH]; cbn; [reflexivity|].
    destruct (RangeParser.inRange amount r) eqn:E.
    + rewrite (inRange_wellOrdered _ _ E). cbn. now rewrite E.
    + destruct (wellOrdered r); cbn; rewrite ?E; exact IH.
  - apply Forall_forall. intros r _ W.
    destruct (RangeParser.inRange amount r) eqn:E; trivial.
    rewrite (inRange_wellOrdered _ _ E) in W. discriminate.
Qed.

(** X20, witness: the range that "15-13" loads. *)
Lemma X20_inverted_ranges_are_dead_witness :
  let r := mkRange (JS.Finite 15) (JS.Finite 13) in
  wellOrdered r = false /\
  RangeParser.inRange (JS.Finite 14) r = false.
Proof.
  intro r. split; [reflexivity|].
  pose proof (proj2 (proj2 (X20_inverted_ranges_are_dead (JS.Finite 14) [r]))) as F.
  inversion F as [|x l H _]; subst. exact (H eq_refl).
Defined.
